(** * opta2.py: affine scaling and tableau simplex for  max cᵗx, Ax <= b, x >= 0

    A shallow embedding of [method] (the interior-point solver together with
    its two applicability checks) and of [simplex_method_manual].

    Numbers.  The program computes on float64 arrays.  The embedding has
    two layers.  In the first a finite float is an exact rational ([Q]);
    it carries the statements that only compare, copy or negate entries,
    or that rest on identities which hold exactly in float64, and the runs
    on concrete inputs on which float64 computes exactly.  Two non-finite
    values that the program produces from finite data are kept there:
    [np.inf] in the list of ratios of the simplex ratio test (an
    [option Q], [None] standing for +inf) and the all-NaN vector that the
    division by [v = 0] leaves in the interior-point iterate.  In the
    second layer the float operations and the numpy routines are
    parameters, and the control flow of the two functions is written over
    them; it carries the statements about computed values (products,
    quotients, inverses), which hold whatever rounding, overflow and
    underflow do.

    Shapes.  Arrays are lists; the theorems that depend on the shapes carry
    the hypothesis that [A] is m x n, [C] and [x0] have length n and [b] has
    length m, which is what the numpy operations of the source require. *)

From Stdlib Require Import List Bool Arith Lia QArith Qabs Qminmax Lqa.
Import ListNotations.
Open Scope Q_scope.

(** ** Vectors and matrices *)

Definition vec := list Q.
Definition matrix := list vec.

(** [a > b] and [a >= b] on floats, as booleans. *)
Definition gtb (a b : Q) : bool := negb (Qle_bool a b).
Definition geb (a b : Q) : bool := Qle_bool b a.

Definition vsum (v : vec) : Q := fold_right Qplus 0 v.

Definition dot (u v : vec) : Q :=
  vsum (map (fun p => fst p * snd p) (combine u v)).

Definition entry (M : matrix) (i j : nat) : Q := nth j (nth i M []) 0.

(** [M[:, j]] *)
Definition column (M : matrix) (j : nat) : vec :=
  map (fun row => nth j row 0) M.

(** [M @ v] for a 1-D [v]. *)
Definition matvec (M : matrix) (v : vec) : vec :=
  map (fun row => dot row v) M.

(** [M @ N] where [N] has [p] columns. *)
Definition matmul (p : nat) (M N : matrix) : matrix :=
  map (fun row => map (fun j => dot row (column N j)) (seq 0 p)) M.

(** [M.T] where [M] has [p] columns. *)
Definition transpose (p : nat) (M : matrix) : matrix :=
  map (fun j => column M j) (seq 0 p).

Definition unit_row (n i : nat) : vec :=
  map (fun j => if Nat.eqb i j then 1 else 0) (seq 0 n).

(** [np.identity(n)], [np.eye(n)] *)
Definition identity (n : nat) : matrix :=
  map (fun i => unit_row n i) (seq 0 n).

(** [np.diag(x)] for a 1-D [x]. *)
Definition diag (x : vec) : matrix :=
  map (fun i => map (fun j => if Nat.eqb i j then nth i x 0 else 0)
                    (seq 0 (length x)))
      (seq 0 (length x)).

Definition vsub (u v : vec) : vec :=
  map (fun p => fst p - snd p) (combine u v).

Definition matsub (M N : matrix) : matrix :=
  map (fun p => vsub (fst p) (snd p)) (combine M N).

(** *** [np.linalg.inv]

    The library routine is modelled by what it computes in exact
    arithmetic: the inverse of a square matrix, by cofactors, and the
    [LinAlgError] it raises on a singular matrix ([None]). *)

Fixpoint remove_at {X : Type} (j : nat) (l : list X) : list X :=
  match l, j with
  | [], _ => []
  | _ :: t, O => t
  | h :: t, S j' => h :: remove_at j' t
  end.

Definition sign (k : nat) : Q := if Nat.even k then 1 else -1.

(** Determinant of an [n] x [n] matrix, expanded along the first row. *)
Fixpoint det (n : nat) (M : matrix) : Q :=
  match n with
  | O => 1
  | S n' =>
      match M with
      | [] => 0
      | row :: rest =>
          vsum (map (fun j => sign j * nth j row 0
                              * det n' (map (remove_at j) rest))
                    (seq 0 n))
      end
  end.

Definition minor (M : matrix) (i j : nat) : matrix :=
  map (remove_at j) (remove_at i M).

Definition inv (M : matrix) : option matrix :=
  let n := length M in
  let d := det n M in
  if Qeq_bool d 0 then None
  else Some (map (fun i =>
               map (fun j => sign (i + j) * det (pred n) (minor M j i) / d)
                   (seq 0 n))
             (seq 0 n)).

(** [np.min] of a 1-D array; numpy raises [ValueError] on an empty one. *)
Definition minimum_of (v : vec) : option Q :=
  match v with
  | [] => None
  | h :: t => Some (fold_left Qmin t h)
  end.

(** [np.linalg.norm(d, ord=2) <= eps], without the square root:
    sqrt(d.d) <= eps  iff  0 <= eps and d.d <= eps^2. *)
Definition norm2_le (d : vec) (eps : Q) : bool :=
  Qle_bool 0 eps && Qle_bool (dot d d) (eps * eps).

(** ** What a call does *)

Inductive exn := LinAlgError | ValueError.

(** ** [method]: applicability checks and the affine-scaling loop *)

(** The ways a call of [method] ends: the four messages it prints before
    returning, or an exception that leaves the function. *)
Inductive outcome :=
| NoSolution            (* "The problem does not have solution" *)
| NotApplicableInit     (* "The method is not applicable" *)
| NotApplicableStop     (* "The method is not applicable!" *)
| Converged (x_star : vec) (objective_value : Q)
| Raised (e : exn).

(** Lines 20-23: [neg] after the scan of one row. *)
Definition row_neg (row : vec) : bool :=
  fold_left (fun neg value => if gtb value 0 then false else neg) row true.

(** Lines 18-25: [sol] after the scan of all rows. *)
Definition rows_sol (A : matrix) : bool :=
  fold_left (fun sol row => if row_neg row then false else sol) A true.

(** Lines 30-34: does some [i] in [range(A.shape[0])] have
    [bound[i] > b[i]]? *)
Definition bound_exceeded (m : nat) (bound b : vec) : bool :=
  existsb (fun i => gtb (nth i bound 0) (nth i b 0)) (seq 0 m).

(** The current iterate [x]: a vector of finite floats, or the all-NaN
    vector of the given length. *)
Inductive iterate :=
| Finite (x : vec)
| NaNs (n : nat).

Inductive step_result :=
| Stop (o : outcome)
| Next (x : iterate).

Section Method.

Variables (alpha eps : Q) (b C : vec) (A : matrix).

Definition A_rev_of (x : vec) : matrix :=
  let n := length x in
  let A_tilda := matmul n A (diag x) in
  matmul (length A) A_tilda (transpose n A_tilda).

(** [c_p] of lines 40-46, given the inverse of [A_tilda @ A_tilda.T]. *)
Definition reduced_cost (x : vec) (A_inv : matrix) : vec :=
  let n := length x in
  let D := diag x in
  let A_tilda := matmul n A D in
  let c_tilda := matvec D C in
  let mult :=
    matmul n (matmul (length A) (transpose n A_tilda) A_inv) A_tilda in
  let P := matsub (identity (length mult)) mult in
  matvec P c_tilda.

(** [x_tilda] of line 53, for [v <> 0]. *)
Definition direction (c_p : vec) (v : Q) : vec :=
  map (fun c => 1 + alpha * c / v) c_p.

(** One turn of the [while] loop (lines 39-65) from a finite iterate.
    When [v = 0], [c_p / v] holds 0/0 = NaN at the position of the
    minimum, so [x_tilda] has a NaN entry, every entry of the full
    product [D @ x_tilda] is NaN, the norm is NaN, [NaN <= eps] is false
    and the all-NaN [x_star] becomes [x]. *)
Definition method_step (x : vec) : step_result :=
  match inv (A_rev_of x) with
  | None => Stop (Raised LinAlgError)
  | Some A_inv =>
      let c_p := reduced_cost x A_inv in
      match minimum_of c_p with
      | None => Stop (Raised ValueError)
      | Some minimum =>
          if geb minimum (1 # 10) then Stop NotApplicableStop
          else
            let v := Qabs minimum in
            if Qeq_bool v 0 then Next (NaNs (length x))
            else
              let x_tilda := direction c_p v in
              let x_star := matvec (diag x) x_tilda in
              if norm2_le (vsub x_star x) eps
              then Stop (Converged x_star (dot C x_star))
              else Next (Finite x_star)
      end
  end.

(** The [while not solved] loop.  It has no bound of its own; [fuel]
    bounds the number of turns the model follows, and [None] says that
    the loop is still running after that many.  From an all-NaN iterate
    every array of the turn is NaN ([np.linalg.inv] meets no zero pivot in
    an all-NaN matrix and returns NaN), both comparisons
    ([minimum >= 0.1], [norm <= eps]) are false and [x] stays all-NaN.
    The debugging [print(123)] of turn 25 is the only use of [counter] and
    is left out. *)
Fixpoint method_loop (fuel : nat) (x : iterate) : option outcome :=
  match fuel with
  | O => None
  | S fuel' =>
      match x with
      | NaNs _ => method_loop fuel' x
      | Finite xv =>
          match method_step xv with
          | Stop o => Some o
          | Next x' => method_loop fuel' x'
          end
      end
  end.

(** The values that line 65 assigns to [x] during the first [fuel]
    turns. *)
Fixpoint iterates (fuel : nat) (x : iterate) : list iterate :=
  match fuel with
  | O => []
  | S fuel' =>
      match x with
      | NaNs _ => x :: iterates fuel' x
      | Finite xv =>
          match method_step xv with
          | Stop _ => []
          | Next x' => x' :: iterates fuel' x'
          end
      end
  end.

Definition method (fuel : nat) (x0 : vec) : option outcome :=
  if negb (rows_sol A) then Some NoSolution
  else if bound_exceeded (length A) (matvec A x0) b
       then Some NotApplicableInit
       else method_loop fuel (Finite x0).

End Method.

Arguments method_step alpha eps C A x : assert.
Arguments method_loop alpha eps C A fuel x : assert.
Arguments iterates alpha eps C A fuel x : assert.
Arguments method alpha eps b C A fuel x0 : assert.

(** ** [simplex_method_manual] *)

(** [np.argmin]: the index of the first occurrence of the least element for
    the order [ltb]; numpy raises [ValueError] on an empty sequence. *)
Fixpoint argmin_from {X : Type} (ltb : X -> X -> bool)
    (best_i : nat) (best : X) (i : nat) (l : list X) : nat :=
  match l with
  | [] => best_i
  | a :: l' =>
      if ltb a best then argmin_from ltb i a (S i) l'
      else argmin_from ltb best_i best (S i) l'
  end.

Definition argmin_by {X : Type} (ltb : X -> X -> bool) (l : list X)
  : option nat :=
  match l with
  | [] => None
  | a :: l' => Some (argmin_from ltb 0%nat a 1%nat l')
  end.

Definition Qltb (a b : Q) : bool := gtb b a.

(** A ratio of the ratio test: a finite float or [np.inf] ([None]). *)
Definition ratio := option Q.

Definition ratio_ltb (r s : ratio) : bool :=
  match r, s with
  | Some x, Some y => Qltb x y
  | Some _, None => true
  | None, _ => false
  end.

(** [l[i] = x] for [i] in range. *)
Fixpoint update {X : Type} (i : nat) (x : X) (l : list X) : list X :=
  match l, i with
  | [], _ => []
  | _ :: l', O => x :: l'
  | a :: l', S i' => a :: update i' x l'
  end.

(** [dst[k : k + len(src)] = src] *)
Fixpoint overwrite {X : Type} (k : nat) (src dst : list X) : list X :=
  match dst with
  | [] => []
  | d :: dst' =>
      match k with
      | S k' => d :: overwrite k' src dst'
      | O =>
          match src with
          | [] => dst
          | s :: src' => s :: overwrite O src' dst'
          end
      end
  end.

(** [T[r0 : r0 + rows(B), c0 : c0 + cols(B)] = B] *)
Fixpoint set_block (r0 c0 : nat) (B T : matrix) : matrix :=
  match T with
  | [] => []
  | row :: T' =>
      match r0 with
      | S r => row :: set_block r c0 B T'
      | O =>
          match B with
          | [] => T
          | brow :: B' => overwrite c0 brow row :: set_block O c0 B' T'
          end
      end
  end.

(** [np.zeros((r, c))] *)
Definition zeros (r c : nat) : matrix := repeat (repeat 0 c) r.

(** The four slice assignments of lines 75-78, in order. *)
Definition fill_constraints (A : matrix) (T : matrix) : matrix :=
  set_block 0 0 A T.
Definition fill_slack (num_vars num_constraints : nat) (T : matrix) : matrix :=
  set_block 0 num_vars (identity num_constraints) T.
Definition fill_rhs (num_vars num_constraints : nat) (b : vec) (T : matrix)
  : matrix :=
  set_block 0 (num_vars + num_constraints) (map (fun x => [x]) b) T.
Definition fill_objective (num_constraints : nat) (C : vec) (T : matrix)
  : matrix :=
  set_block num_constraints 0 [map Qopp C] T.

(** Lines 70-78. *)
Definition build_tableau (C : vec) (A : matrix) (b : vec) : matrix :=
  let num_vars := length C in
  let num_constraints := length b in
  fill_objective num_constraints C
    (fill_rhs num_vars num_constraints b
       (fill_slack num_vars num_constraints
          (fill_constraints A
             (zeros (S num_constraints)
                    (S (num_vars + num_constraints)))))).

(** [tableau[-1, :-1]] *)
Definition objective_row (t : matrix) : vec := removelast (last t []).

(** [tableau[i, -1]] *)
Definition rhs (t : matrix) (i : nat) : Q := last (nth i t []) 0.

(** Lines 88-93. *)
Definition ratios_of (num_constraints : nat) (t : matrix) (pivot_col : nat)
  : list ratio :=
  map (fun i => if gtb (entry t i pivot_col) 0
                then Some (rhs t i / entry t i pivot_col)
                else None)
      (seq 0 num_constraints).

(** What one turn of the [while True] loop decides before it pivots. *)
Inductive turn :=
| TurnBreak                               (* line 85 *)
| TurnUnbounded                           (* lines 96-98 *)
| TurnPivot (pivot_row pivot_col : nat)   (* lines 101-106 *)
| TurnRaise (e : exn).

Definition simplex_turn (num_constraints : nat) (t : matrix) : turn :=
  match argmin_by Qltb (objective_row t) with
  | None => TurnRaise ValueError
  | Some pivot_col =>
      if geb (nth pivot_col (last t []) 0) 0 then TurnBreak
      else
        let ratios := ratios_of num_constraints t pivot_col in
        match argmin_by ratio_ltb ratios with
        | None => TurnRaise ValueError
        | Some pivot_row =>
            match nth pivot_row ratios None with
            | None => TurnUnbounded
            | Some _ => TurnPivot pivot_row pivot_col
            end
        end
  end.

(** Line 102: [tableau[pivot_row, :] /= pivot_value]. *)
Definition normalize_row (t : matrix) (pivot_row pivot_col : nat) : matrix :=
  let pivot_value := entry t pivot_row pivot_col in
  update pivot_row (map (fun a => a / pivot_value) (nth pivot_row t [])) t.

(** Lines 105-106 for one [i]. *)
Definition eliminate_row (pivot_row pivot_col : nat) (t : matrix) (i : nat)
  : matrix :=
  if Nat.eqb i pivot_row then t
  else update i (vsub (nth i t [])
                      (map (Qmult (entry t i pivot_col)) (nth pivot_row t [])))
              t.

(** Lines 101-106. *)
Definition pivot (num_constraints : nat) (t : matrix)
    (pivot_row pivot_col : nat) : matrix :=
  fold_left (eliminate_row pivot_row pivot_col)
            (seq 0 (S num_constraints))
            (normalize_row t pivot_row pivot_col).

(** How the loop was left, on which tableau, after how many pivots. *)
Inductive loop_end := EndOptimal | EndUnbounded | EndRaised (e : exn).

Record loop_result := {
  ending : loop_end;
  final_tableau : matrix;
  pivots : nat
}.

Fixpoint simplex_loop (fuel num_constraints : nat) (t : matrix) (done : nat)
  : option loop_result :=
  match fuel with
  | O => None
  | S fuel' =>
      match simplex_turn num_constraints t with
      | TurnBreak => Some {| ending := EndOptimal; final_tableau := t;
                             pivots := done |}
      | TurnUnbounded => Some {| ending := EndUnbounded; final_tableau := t;
                                 pivots := done |}
      | TurnRaise e => Some {| ending := EndRaised e; final_tableau := t;
                               pivots := done |}
      | TurnPivot pivot_row pivot_col =>
          simplex_loop fuel' num_constraints
                       (pivot num_constraints t pivot_row pivot_col) (S done)
      end
  end.

Definition count (f : Q -> bool) (v : vec) : nat := length (filter f v).

(** [np.where(v == 1)[0][0]] *)
Fixpoint first_index (f : Q -> bool) (v : vec) : nat :=
  match v with
  | [] => O
  | a :: v' => if f a then O else S (first_index f v')
  end.

Definition is_one (a : Q) : bool := Qeq_bool a 1.
Definition above_one (a : Q) : bool := gtb a 1.

(** Line 115: the test that decides whether column [j] is read as basic. *)
Definition treated_basic (t : matrix) (j : nat) : bool :=
  let basic_vars := column t j in
  Nat.eqb (count is_one basic_vars) 1
  && Nat.eqb (count above_one basic_vars) 0.

(** Lines 114-118: [solution[j]]. *)
Definition solution_at (t : matrix) (j : nat) : Q :=
  if treated_basic t j then rhs t (first_index is_one (column t j)) else 0.

(** Lines 111-118. *)
Definition extract_solution (num_vars : nat) (t : matrix) : vec :=
  map (solution_at t) (seq 0 num_vars).

(** The ways a call of [simplex_method_manual] ends. *)
Inductive simplex_outcome :=
| Optimal (solution : vec) (objective_value : Q)
| Unbounded       (* "The problem does not have a finite solution." *)
| SimplexRaised (e : exn).

Definition report (num_vars : nat) (r : loop_result) : simplex_outcome :=
  match ending r with
  | EndOptimal =>
      Optimal (extract_solution num_vars (final_tableau r))
              (last (last (final_tableau r) []) 0)
  | EndUnbounded => Unbounded
  | EndRaised e => SimplexRaised e
  end.

Definition simplex_run (fuel : nat) (C : vec) (A : matrix) (b : vec)
  : option loop_result :=
  simplex_loop fuel (length b) (build_tableau C A b) 0.

Definition simplex_method_manual (fuel : nat) (C : vec) (A : matrix) (b : vec)
  : option simplex_outcome :=
  option_map (report (length C)) (simplex_run fuel C A b).

(** ** The arrays of a call as objects in a store

    For the question of which arrays a call writes, the arrays live in a
    store and the two functions receive references.  An expression that
    builds a new array ([A @ D], [-C], [np.array(x0, dtype=float)], ...)
    allocates; an assignment through an index or slice and an augmented
    assignment ([/=], [-=]) write in place into the array the name refers
    to; a plain assignment ([x = x_star]) rebinds the name.  Temporaries
    that no name keeps are computed as values. *)

Inductive ndarray :=
| Arr1 (v : vec)
| Arr2 (M : matrix)
| ArrNaN (n : nat).

Definition heap := list ndarray.

Definition alloc (a : ndarray) (h : heap) : nat * heap :=
  (length h, h ++ [a]).

Definition store (l : nat) (a : ndarray) (h : heap) : heap := update l a h.

Definition load1 (h : heap) (l : nat) : vec :=
  match nth_error h l with
  | Some (Arr1 v) => v
  | _ => []
  end.

Definition load2 (h : heap) (l : nat) : matrix :=
  match nth_error h l with
  | Some (Arr2 M) => M
  | _ => []
  end.

Definition load_iterate (h : heap) (l : nat) : iterate :=
  match nth_error h l with
  | Some (Arr1 v) => Finite v
  | Some (ArrNaN n) => NaNs n
  | _ => Finite []
  end.

Definition array_of (x : iterate) : ndarray :=
  match x with
  | Finite v => Arr1 v
  | NaNs n => ArrNaN n
  end.

(** An in-place write into the 2-D array at [l]. *)
Definition modify2 (l : nat) (f : matrix -> matrix) (h : heap) : heap :=
  store l (Arr2 (f (load2 h l))) h.

(** Lines 70-78 on the store: the new tableau and the store after the four
    slice assignments. *)
Definition build_tableau_st (C A b : nat) (h : heap) : nat * heap :=
  let num_vars := length (load1 h C) in
  let num_constraints := length (load1 h b) in
  let (tableau, h0) :=
    alloc (Arr2 (zeros (S num_constraints)
                       (S (num_vars + num_constraints)))) h in
  let h1 := modify2 tableau (fill_constraints (load2 h0 A)) h0 in
  let h2 := modify2 tableau (fill_slack num_vars num_constraints) h1 in
  let h3 := modify2 tableau
              (fill_rhs num_vars num_constraints (load1 h2 b)) h2 in
  let h4 := modify2 tableau
              (fill_objective num_constraints (load1 h3 C)) h3 in
  (tableau, h4).

(** Lines 101-106 on the store. *)
Definition pivot_st (num_constraints tableau pivot_row pivot_col : nat)
    (h : heap) : heap :=
  fold_left
    (fun h' i =>
       modify2 tableau (fun t => eliminate_row pivot_row pivot_col t i) h')
    (seq 0 (S num_constraints))
    (modify2 tableau (fun t => normalize_row t pivot_row pivot_col) h).

Fixpoint simplex_loop_st (fuel num_constraints tableau : nat) (h : heap)
    (done : nat) : option (loop_end * nat) * heap :=
  match fuel with
  | O => (None, h)
  | S fuel' =>
      match simplex_turn num_constraints (load2 h tableau) with
      | TurnBreak => (Some (EndOptimal, done), h)
      | TurnUnbounded => (Some (EndUnbounded, done), h)
      | TurnRaise e => (Some (EndRaised e, done), h)
      | TurnPivot pivot_row pivot_col =>
          simplex_loop_st fuel' num_constraints tableau
            (pivot_st num_constraints tableau pivot_row pivot_col h) (S done)
      end
  end.

(** [simplex_method_manual] on references [C], [A], [b]: what the call
    reports and the store it leaves.  [solution] is a new array, filled by
    lines 112-118. *)
Definition simplex_method_manual_st (fuel C A b : nat) (h : heap)
  : option simplex_outcome * heap :=
  let num_vars := length (load1 h C) in
  let num_constraints := length (load1 h b) in
  let (tableau, h1) := build_tableau_st C A b h in
  match simplex_loop_st fuel num_constraints tableau h1 0 with
  | (None, h2) => (None, h2)
  | (Some (EndOptimal, _), h2) =>
      let (solution, h3) :=
        alloc (Arr1 (extract_solution num_vars (load2 h2 tableau))) h2 in
      (Some (Optimal (load1 h3 solution)
                     (last (last (load2 h3 tableau) []) 0)), h3)
  | (Some (EndUnbounded, _), h2) => (Some Unbounded, h2)
  | (Some (EndRaised e, _), h2) => (Some (SimplexRaised e), h2)
  end.

(** The [while] loop of [method] on the store: [x] is the reference the
    name [x] holds; [A] and [C] are read from the store in every turn. *)
Fixpoint method_loop_st (alpha eps : Q) (C A : nat) (fuel : nat) (x : nat)
    (h : heap) : option outcome * heap :=
  match fuel with
  | O => (None, h)
  | S fuel' =>
      match load_iterate h x with
      | NaNs n =>
          let (x_star, h') := alloc (ArrNaN n) h in
          method_loop_st alpha eps C A fuel' x_star h'
      | Finite xv =>
          match method_step alpha eps (load1 h C) (load2 h A) xv with
          | Stop o => (Some o, h)
          | Next x' =>
              let (x_star, h') := alloc (array_of x') h in
              method_loop_st alpha eps C A fuel' x_star h'
          end
      end
  end.

(** [method] on references [x0], [b], [C], [A]. *)
Definition method_st (x0 : nat) (alpha eps : Q) (b C A : nat) (fuel : nat)
    (h : heap) : option outcome * heap :=
  if negb (rows_sol (load2 h A)) then (Some NoSolution, h)
  else
    let (bound, h1) := alloc (Arr1 (matvec (load2 h A) (load1 h x0))) h in
    if bound_exceeded (length (load2 h1 A)) (load1 h1 bound) (load1 h1 b)
    then (Some NotApplicableInit, h1)
    else
      let (x, h2) := alloc (Arr1 (load1 h1 x0)) h1 in
      method_loop_st alpha eps C A fuel x h2.

(** [h'] holds at every reference of [h] what [h] holds there. *)
Definition preserves (h h' : heap) : Prop :=
  forall l, (l < length h)%nat -> nth_error h' l = nth_error h l.

Definition all_positive (x : vec) : Prop := Forall (fun a => 0 < a) x.

Definition positive_iterate (x : iterate) : Prop :=
  match x with
  | Finite xv => all_positive xv
  | NaNs _ => False
  end.

Definition positive_or_nan (x : iterate) : Prop :=
  match x with
  | Finite xv => all_positive xv
  | NaNs _ => True
  end.

(** [M] is singular: [np.linalg.inv] has no inverse to return. *)
Definition singular (M : matrix) : Prop := det (length M) M == 0.

(** The call came back with one of its reports, not with an exception. *)
Definition returned_status (o : outcome) : Prop :=
  match o with
  | Raised _ => False
  | _ => True
  end.

(** [C], [A], [b] have the shapes n, m x n, m. *)
Definition well_shaped (C : vec) (A : matrix) (b : vec) : Prop :=
  length A = length b /\ Forall (fun row => length row = length C) A.

(** The specification's reading of a basic column: exactly one entry equal
    to 1 and every other entry equal to 0. *)
Definition unit_column (v : vec) : bool :=
  Nat.eqb (count is_one v) 1
  && Nat.eqb (count (fun a => negb (is_one a) && negb (Qeq_bool a 0)) v) 0.

(** [h'] has grown out of [h] and agrees with [h] below [k]. *)
Definition grown (k : nat) (h h' : heap) : Prop :=
  (k <= length h')%nat
  /\ forall l, (l < k)%nat -> nth_error h' l = nth_error h l.

(** Every row of [t] has [w] entries. *)
Definition rectangular (w : nat) (t : matrix) : Prop :=
  Forall (fun row => length row = w) t.

(** Row [i] after lines 105-106, from the tableau [t] that line 102 left. *)
Definition eliminated (pivot_row pivot_col : nat) (t : matrix) (i : nat) : vec :=
  vsub (nth i t []) (map (Qmult (entry t i pivot_col)) (nth pivot_row t [])).

(** ** The main block

    Reading the inputs from the console ([input_vector], [input_matrix])
    is left out; [main] starts from the arrays read. *)

(** How the program ends once the inputs are read (lines 134-144): the
    three calls in order, none of them guarded, so that an exception of
    one call leaves the program before the next call is made. *)
Inductive program_end :=
| Finished (run1 run2 : outcome) (run3 : simplex_outcome)
| Aborted (completed : list outcome) (e : exn).

Definition main (fuel : nat) (C : vec) (A : matrix) (x0 b : vec) (eps : Q)
  : option program_end :=
  match method (1 # 2) eps b C A fuel x0 with
  | None => None
  | Some (Raised e) => Some (Aborted [] e)
  | Some run1 =>
      match method (9 # 10) eps b C A fuel x0 with
      | None => None
      | Some (Raised e) => Some (Aborted [run1] e)
      | Some run2 =>
          match simplex_method_manual fuel C A b with
          | None => None
          | Some (SimplexRaised e) => Some (Aborted [run1; run2] e)
          | Some run3 => Some (Finished run1 run2 run3)
          end
      end
  end.

(** ** The two functions over any float arithmetic

    The definitions above compute with exact rationals.  What a statement
    says about computed values (a product, a quotient, an inverse) then
    holds of the program only where float64 computes exactly, so the
    statements about such values are made over the definitions below,
    which do not commit to how numpy computes.  The float64 values, their
    comparisons and elementwise operations and every array routine that
    [method] calls are the fields of a record; the control flow of lines
    17-66 is written over that record, and what is proved of it holds
    whatever the rounding, overflow, underflow or NaN behaviour of those
    operations is.  A routine that can raise returns a [result]; nothing in
    the source catches an exception. *)

Inductive pyerror := PyLinAlgError | PyValueError | PyIndexError.

Inductive result (X : Type) :=
| Ok (x : X)
| Raise (e : pyerror).

Arguments Ok {X} x.
Arguments Raise {X} e.

Definition bind {X Y : Type} (c : result X) (k : X -> result Y) : result Y :=
  match c with
  | Ok x => k x
  | Raise e => Raise e
  end.

Notation "x <- c ;; k" := (bind c (fun x => k))
  (at level 61, c at next level, right associativity).

Record numpy := {
  num : Type;                                   (* float64 *)
  np_zero : num;                                (* 0 *)
  np_one : num;                                 (* 1 *)
  np_tenth : num;                               (* 0.1 *)
  np_gt : num -> num -> bool;                   (* a > b *)
  np_ge : num -> num -> bool;                   (* a >= b *)
  np_add : num -> num -> num;
  np_mul : num -> num -> num;
  np_div : num -> num -> num;                   (* warns, never raises *)
  np_abs : num -> num;                          (* np.abs *)
  np_diag : list num -> list (list num);        (* np.diag(x) *)
  np_transpose : list (list num) -> list (list num);        (* M.T *)
  np_identity : nat -> list (list num);         (* np.identity(n) *)
  np_matmul : list (list num) -> list (list num)
              -> result (list (list num));      (* M @ N *)
  np_matvec : list (list num) -> list num
              -> result (list num);             (* M @ v *)
  np_dot : list num -> list num -> result num;  (* u @ v *)
  np_inv : list (list num) -> result (list (list num));     (* np.linalg.inv *)
  np_minus : list (list num) -> list (list num)
             -> result (list (list num));       (* M - N *)
  np_subtract : list num -> list num -> result (list num);  (* np.subtract *)
  np_min : list num -> result num;              (* np.min *)
  np_norm_le : list num -> num -> bool
                         (* np.linalg.norm(d, ord=2) <= eps, as one test *)
}.

Module Np.

(** The ways a call of [method] ends. *)
Inductive outcome (N : numpy) :=
| NoSolution
| NotApplicableInit
| NotApplicableStop
| Converged (x_star : list (num N)) (objective_value : num N)
| Raised (e : pyerror).

Arguments NoSolution {N}.
Arguments NotApplicableInit {N}.
Arguments NotApplicableStop {N}.
Arguments Converged {N} x_star objective_value.
Arguments Raised {N} e.

Inductive turn_end (N : numpy) :=
| Stop (o : outcome N)
| Next (x : list (num N)).

Arguments Stop {N} o.
Arguments Next {N} x.

Section Method.

Variable N : numpy.
Variables (alpha eps : num N) (b C : list (num N)) (A : list (list (num N))).

(** Lines 20-23. *)
Definition row_neg (row : list (num N)) : bool :=
  fold_left (fun neg value => if np_gt N value (np_zero N) then false else neg)
            row true.

(** Lines 18-25. *)
Definition rows_sol : bool :=
  fold_left (fun sol row => if row_neg row then false else sol) A true.

(** Lines 30-34 for the indices [idx]: [Ok true] when the message of line
    33 is printed; indexing past the end raises. *)
Fixpoint bound_check (idx : list nat) (bound : list (num N)) : result bool :=
  match idx with
  | [] => Ok false
  | i :: idx' =>
      match nth_error bound i, nth_error b i with
      | Some a, Some b_i =>
          if np_gt N a b_i then Ok true else bound_check idx' bound
      | _, _ => Raise PyIndexError
      end
  end.

(** [x_tilda] of line 53: [1 + alpha * c_p / v], entry by entry. *)
Definition direction (c_p : list (num N)) (v : num N) : list (num N) :=
  map (fun c => np_add N (np_one N) (np_div N (np_mul N alpha c) v)) c_p.

(** Lines 40-46: [c_p] in the turn from the iterate [x]. *)
Definition reduced_cost (x : list (num N)) : result (list (num N)) :=
  let D := np_diag N x in
  A_tilda <- np_matmul N A D ;;
  c_tilda <- np_matvec N D C ;;
  A_rev <- np_matmul N A_tilda (np_transpose N A_tilda) ;;
  A_inv <- np_inv N A_rev ;;
  lhs <- np_matmul N (np_transpose N A_tilda) A_inv ;;
  mult <- np_matmul N lhs A_tilda ;;
  P <- np_minus N (np_identity N (length mult)) mult ;;
  np_matvec N P c_tilda.

(** Lines 52-55: the candidate [x_star] of the turn from [x]. *)
Definition candidate (x c_p : list (num N)) (minimum : num N)
  : result (list (num N)) :=
  let v := np_abs N minimum in
  let x_tilda := direction c_p v in
  np_matvec N (np_diag N x) x_tilda.

(** Lines 39-65: one turn of the [while] loop from the iterate [x]. *)
Definition method_turn (x : list (num N)) : result (turn_end N) :=
  c_p <- reduced_cost x ;;
  minimum <- np_min N c_p ;;
  if np_ge N minimum (np_tenth N) then Ok (Stop NotApplicableStop)
  else
    x_star <- candidate x c_p minimum ;;
    d <- np_subtract N x_star x ;;
    if np_norm_le N d eps
    then objective_value <- np_dot N C x_star ;;
         Ok (Stop (Converged x_star objective_value))
    else Ok (Next x_star).

(** The [while not solved] loop; [None] says that it is still running
    after [fuel] turns. *)
Fixpoint method_loop (fuel : nat) (x : list (num N)) : option (outcome N) :=
  match fuel with
  | O => None
  | S fuel' =>
      match method_turn x with
      | Raise e => Some (Raised e)
      | Ok (Stop o) => Some o
      | Ok (Next x') => method_loop fuel' x'
      end
  end.

(** The iterate after [k] turns, when each of them went on to the next. *)
Fixpoint iterate (k : nat) (x : list (num N)) : option (list (num N)) :=
  match k with
  | O => Some x
  | S k' =>
      match method_turn x with
      | Ok (Next x') => iterate k' x'
      | _ => None
      end
  end.

(** Lines 17-66. *)
Definition method (fuel : nat) (x0 : list (num N)) : option (outcome N) :=
  if negb rows_sol then Some NoSolution
  else
    match np_matvec N A x0 with
    | Raise e => Some (Raised e)
    | Ok bound =>
        match bound_check (seq 0 (length A)) bound with
        | Raise e => Some (Raised e)
        | Ok true => Some NotApplicableInit
        | Ok false => method_loop fuel x0
        end
    end.

End Method.

(** Lines 81-106 over float comparisons and division: [flt] is [<],
    [fge], [fgt], [feq] are [>=], [>], [==], [fdiv] is [/], [inf] is
    [np.inf]; [pivot] stands for lines 101-106.  [argmin_by flt] is
    [np.argmin] on an array that holds no NaN: the first index of a least
    entry. *)
Section Simplex.

Variable F : Type.
Variables (flt fge fgt feq : F -> F -> bool)
          (fdiv : F -> F -> F)
          (zero inf : F)
          (pivot : nat -> list (list F) -> nat -> nat -> list (list F)).

Definition entry (t : list (list F)) (i j : nat) : F :=
  nth j (nth i t []) zero.

(** [tableau[-1, :-1]] *)
Definition objective_row (t : list (list F)) : list F :=
  removelast (last t []).

(** [tableau[i, -1]] *)
Definition rhs (t : list (list F)) (i : nat) : F :=
  last (nth i t []) zero.

(** Lines 88-93. *)
Definition ratios_of (num_constraints : nat) (t : list (list F))
    (pivot_col : nat) : list F :=
  map (fun i => if fgt (entry t i pivot_col) zero
                then fdiv (rhs t i) (entry t i pivot_col)
                else inf)
      (seq 0 num_constraints).

(** Lines 83-98. *)
Definition simplex_turn (num_constraints : nat) (t : list (list F)) : turn :=
  match argmin_by flt (objective_row t) with
  | None => TurnRaise ValueError
  | Some pivot_col =>
      if fge (nth pivot_col (last t []) zero) zero then TurnBreak
      else
        let ratios := ratios_of num_constraints t pivot_col in
        match argmin_by flt ratios with
        | None => TurnRaise ValueError
        | Some pivot_row =>
            if feq (nth pivot_row ratios inf) inf then TurnUnbounded
            else TurnPivot pivot_row pivot_col
        end
  end.

(** Lines 81-106: how the loop was left, on which tableau, after how many
    pivots. *)
Fixpoint simplex_loop (fuel num_constraints : nat) (t : list (list F))
    (done : nat) : option (loop_end * list (list F) * nat) :=
  match fuel with
  | O => None
  | S fuel' =>
      match simplex_turn num_constraints t with
      | TurnBreak => Some (EndOptimal, t, done)
      | TurnUnbounded => Some (EndUnbounded, t, done)
      | TurnRaise e => Some (EndRaised e, t, done)
      | TurnPivot pivot_row pivot_col =>
          simplex_loop fuel' num_constraints
                       (pivot num_constraints t pivot_row pivot_col) (S done)
      end
  end.

End Simplex.

End Np.

(** The operations in exact rational arithmetic, to run the definitions
    above on well-shaped inputs on which float64 arithmetic is exact
    (small integers and dyadic fractions). *)
Definition exact : numpy := {|
  num := Q;
  np_zero := 0;
  np_one := 1;
  np_tenth := 1 # 10;
  np_gt := gtb;
  np_ge := geb;
  np_add := Qplus;
  np_mul := Qmult;
  np_div := Qdiv;
  np_abs := Qabs;
  np_diag := diag;
  np_transpose := fun M => transpose (length (hd [] M)) M;
  np_identity := identity;
  np_matmul := fun M P => Ok (matmul (length (hd [] P)) M P);
  np_matvec := fun M v => Ok (matvec M v);
  np_dot := fun u v => Ok (dot u v);
  np_inv := fun M => match inv M with
                     | Some M' => Ok M'
                     | None => Raise PyLinAlgError
                     end;
  np_minus := fun M P => Ok (matsub M P);
  np_subtract := fun u v => Ok (vsub u v);
  np_min := fun v => match minimum_of v with
                     | Some m => Ok m
                     | None => Raise PyValueError
                     end;
  np_norm_le := norm2_le
|}.

(** The extended rationals, [None] being +inf, with the quotient by a
    finite positive divisor and [==]: the values that the ratio test meets
    where float64 divides exactly. *)
Definition ratio_div (r s : ratio) : ratio :=
  match r, s with
  | Some x, Some y => Some (x / y)
  | Some _, None => Some 0
  | None, _ => None
  end.

Definition ratio_eqb (r s : ratio) : bool :=
  match r, s with
  | Some x, Some y => Qeq_bool x y
  | None, None => true
  | _, _ => false
  end.

(** * Properties *)

(** ** Comparisons *)

Lemma gtb_true (a b : Q) : gtb a b = true <-> b < a.
Proof.
  unfold gtb. rewrite negb_true_iff, <- not_true_iff_false, Qle_bool_iff.
  split; intro H; [apply Qnot_le_lt | apply Qlt_not_le]; exact H.
Qed.

Lemma gtb_false (a b : Q) : gtb a b = false <-> a <= b.
Proof.
  unfold gtb. rewrite negb_false_iff. apply Qle_bool_iff.
Qed.

Lemma geb_true (a b : Q) : geb a b = true <-> b <= a.
Proof. apply Qle_bool_iff. Qed.

Lemma geb_false (a b : Q) : geb a b = false <-> a < b.
Proof.
  unfold geb. rewrite <- not_true_iff_false, Qle_bool_iff.
  split; intro H; [apply Qnot_le_lt | apply Qlt_not_le]; exact H.
Qed.

(** ** The applicability checks of [method] *)

Lemma row_neg_acc_false (row : vec) :
  fold_left (fun neg value => if gtb value 0 then false else neg) row false
  = false.
Proof.
  induction row as [|a row IH]; simpl; [reflexivity|].
  destruct (gtb a 0); exact IH.
Qed.

Lemma row_neg_spec (row : vec) :
  row_neg row = true <-> Forall (fun v => ~ 0 < v) row.
Proof.
  unfold row_neg. induction row as [|a row IH]; simpl.
  - split; [constructor | reflexivity].
  - destruct (gtb a 0) eqn:E.
    + rewrite row_neg_acc_false. apply gtb_true in E. split.
      * discriminate.
      * intro H. inversion H; subst. contradiction.
    + rewrite IH. apply gtb_false in E. split.
      * intro H. constructor; [apply Qle_not_lt; exact E | exact H].
      * intro H. inversion H; assumption.
Qed.

Lemma row_neg_false (row : vec) :
  row_neg row = false <-> Exists (fun v => 0 < v) row.
Proof.
  unfold row_neg. induction row as [|a row IH]; simpl.
  - split; [discriminate | intro H; inversion H].
  - destruct (gtb a 0) eqn:E.
    + rewrite row_neg_acc_false. apply gtb_true in E.
      split; [intros _; left; exact E | reflexivity].
    + rewrite IH. apply gtb_false in E. split.
      * intro H. right. exact H.
      * intro H. inversion H; subst; [|assumption].
        exfalso. apply (Qle_not_lt _ _ E). assumption.
Qed.

Lemma rows_sol_acc_false (A : matrix) :
  fold_left (fun sol row => if row_neg row then false else sol) A false
  = false.
Proof.
  induction A as [|row A IH]; simpl; [reflexivity|].
  destruct (row_neg row); exact IH.
Qed.

Lemma rows_sol_true (A : matrix) :
  rows_sol A = true <-> Forall (fun row => Exists (fun v => 0 < v) row) A.
Proof.
  unfold rows_sol. induction A as [|row A IH]; simpl.
  - split; [constructor | reflexivity].
  - destruct (row_neg row) eqn:E.
    + rewrite rows_sol_acc_false. split; [discriminate|].
      intro H. inversion H as [|? ? Hrow _]; subst.
      apply row_neg_false in Hrow. congruence.
    + rewrite IH. apply row_neg_false in E. split.
      * intro H. constructor; assumption.
      * intro H. inversion H; assumption.
Qed.

Lemma rows_sol_false (A : matrix) :
  rows_sol A = false <-> Exists (fun row => Forall (fun v => ~ 0 < v) row) A.
Proof.
  unfold rows_sol. induction A as [|row A IH]; simpl.
  - split; [discriminate | intro H; inversion H].
  - destruct (row_neg row) eqn:E.
    + rewrite rows_sol_acc_false. apply row_neg_spec in E.
      split; [intros _; left; exact E | reflexivity].
    + rewrite IH. split.
      * intro H. right. exact H.
      * intro H. inversion H as [? ? Hrow|]; subst; [|assumption].
        apply row_neg_spec in Hrow. congruence.
Qed.

Lemma method_step_not_NoSolution alpha eps C A x :
  method_step alpha eps C A x <> Stop NoSolution.
Proof.
  unfold method_step.
  destruct (inv _); [|discriminate].
  destruct (minimum_of _); [|discriminate].
  destruct (geb _ _); [discriminate|].
  destruct (Qeq_bool _ _); [discriminate|].
  destruct (norm2_le _ _); discriminate.
Qed.

Lemma method_step_not_NotApplicableInit alpha eps C A x :
  method_step alpha eps C A x <> Stop NotApplicableInit.
Proof.
  unfold method_step.
  destruct (inv _); [|discriminate].
  destruct (minimum_of _); [|discriminate].
  destruct (geb _ _); [discriminate|].
  destruct (Qeq_bool _ _); [discriminate|].
  destruct (norm2_le _ _); discriminate.
Qed.

Lemma method_loop_not_NoSolution alpha eps C A fuel x :
  method_loop alpha eps C A fuel x <> Some NoSolution.
Proof.
  revert x. induction fuel as [|fuel IH]; intro x; simpl; [discriminate|].
  destruct x as [xv|n]; [|apply IH].
  destruct (method_step alpha eps C A xv) as [o|x'] eqn:E; [|apply IH].
  intro H. injection H as ->. exact (method_step_not_NoSolution _ _ _ _ _ E).
Qed.

Lemma method_loop_not_NotApplicableInit alpha eps C A fuel x :
  method_loop alpha eps C A fuel x <> Some NotApplicableInit.
Proof.
  revert x. induction fuel as [|fuel IH]; intro x; simpl; [discriminate|].
  destruct x as [xv|n]; [|apply IH].
  destruct (method_step alpha eps C A xv) as [o|x'] eqn:E; [|apply IH].
  intro H. injection H as ->.
  exact (method_step_not_NotApplicableInit _ _ _ _ _ E).
Qed.

Lemma bound_exceeded_true (m : nat) (bound b : vec) :
  bound_exceeded m bound b = true
  <-> exists i, (i < m)%nat /\ nth i b 0 < nth i bound 0.
Proof.
  unfold bound_exceeded. rewrite existsb_exists. split.
  - intros [i [Hin Hgt]]. exists i. apply in_seq in Hin. apply gtb_true in Hgt.
    split; [lia | exact Hgt].
  - intros [i [Hlt Hgt]]. exists i. split.
    + apply in_seq. lia.
    + apply gtb_true. exact Hgt.
Qed.

Lemma bound_exceeded_false (m : nat) (bound b : vec) :
  bound_exceeded m bound b = false
  <-> forall i, (i < m)%nat -> nth i bound 0 <= nth i b 0.
Proof.
  rewrite <- not_true_iff_false, bound_exceeded_true. split.
  - intros H i Hi. apply Qnot_lt_le. intro Hlt. apply H. exists i. tauto.
  - intros H [i [Hi Hlt]]. apply (Qlt_not_le _ _ Hlt). apply H. exact Hi.
Qed.

(** C6. Row-positivity test: when some row of [A] has no strictly positive
    entry, [method] reports NoSolution; when every row of [A] has a
    strictly positive entry the test passes ([sol] stays true and the call
    does not end with NoSolution). *)
Theorem row_positivity_test alpha eps b C A fuel x0 :
  (Exists (fun row => Forall (fun v => ~ 0 < v) row) A ->
   method alpha eps b C A fuel x0 = Some NoSolution)
  /\ (Forall (fun row => Exists (fun v => 0 < v) row) A ->
      rows_sol A = true
      /\ method alpha eps b C A fuel x0 <> Some NoSolution).
Proof.
  split.
  - intro H. apply rows_sol_false in H. unfold method. rewrite H. reflexivity.
  - intro H. apply rows_sol_true in H. split; [exact H|].
    unfold method. rewrite H. simpl.
    destruct (bound_exceeded _ _ _); [discriminate|].
    apply method_loop_not_NoSolution.
Qed.

(** The instance of the specification: A = [[-1, -2]] is flagged. *)
Lemma row_positivity_test_witness :
  method (1 # 2) (1 # 1000) [4] [1; 1] [[-1; -2]] 10 [1; 1] = Some NoSolution
  /\ rows_sol [[1; 0]; [0; 1]; [1; 1]] = true.
Proof.
  split.
  - apply (proj1 (row_positivity_test (1 # 2) (1 # 1000) [4] [1; 1]
                                      [[-1; -2]] 10 [1; 1])).
    left. repeat constructor; intro H; discriminate H.
  - apply (proj2 (row_positivity_test (1 # 2) (1 # 1000) [4; 4; 5] [3; 2]
                                      [[1; 0]; [0; 1]; [1; 1]] 1 [1; 1])).
    constructor; [left; reflexivity|].
    constructor; [right; left; reflexivity|].
    constructor; [left; reflexivity|constructor].
Defined.

(** ** One turn of the affine-scaling loop *)

Lemma fold_left_Qmin_le (l : vec) (a : Q) :
  fold_left Qmin l a <= a /\ Forall (fun c => fold_left Qmin l a <= c) l.
Proof.
  revert a. induction l as [|c l IH]; intro a; simpl.
  - split; [apply Qle_refl | constructor].
  - destruct (IH (Qmin a c)) as [H1 H2]. split.
    + eapply Qle_trans; [exact H1 | apply Q.le_min_l].
    + constructor; [eapply Qle_trans; [exact H1 | apply Q.le_min_r] | exact H2].
Qed.

Lemma minimum_of_le (v : vec) (m : Q) :
  minimum_of v = Some m -> Forall (fun c => m <= c) v.
Proof.
  destruct v as [|a l]; simpl; [discriminate|].
  intro H. injection H as <-.
  destruct (fold_left_Qmin_le l a) as [H1 H2]. constructor; assumption.
Qed.

Lemma direction_entry_positive (alpha m c : Q) :
  0 < alpha -> alpha < 1 -> m <= c -> ~ Qabs m == 0 ->
  0 < 1 + alpha * c / Qabs m.
Proof.
  intros Ha0 Ha1 Hmc Hv.
  assert (Hvpos : 0 < Qabs m).
  { destruct (Qle_lt_or_eq _ _ (Qabs_nonneg m)) as [H|H]; [exact H|].
    exfalso. apply Hv. symmetry. exact H. }
  set (v := Qabs m) in *.
  assert (Hcv : - v <= c).
  { eapply Qle_trans; [|exact Hmc]. unfold v.
    apply Qabs_case; intro; lra. }
  assert (E : 1 + alpha * c / v == (v + alpha * c) / v) by (field; lra).
  rewrite E. apply Qlt_shift_div_l; [exact Hvpos|]. nra.
Qed.

(** ** Shapes *)

Lemma length_matvec (M : matrix) (v : vec) : length (matvec M v) = length M.
Proof. apply length_map. Qed.

Lemma length_matmul (p : nat) (M N : matrix) : length (matmul p M N) = length M.
Proof. apply length_map. Qed.

Lemma length_transpose (p : nat) (M : matrix) : length (transpose p M) = p.
Proof. unfold transpose. rewrite length_map. apply length_seq. Qed.

Lemma length_identity (n : nat) : length (identity n) = n.
Proof. unfold identity. rewrite length_map. apply length_seq. Qed.

Lemma length_matsub (M N : matrix) :
  length (matsub M N) = Nat.min (length M) (length N).
Proof. unfold matsub. rewrite length_map. apply length_combine. Qed.

Lemma length_reduced_cost C A x A_inv :
  length (reduced_cost C A x A_inv) = length x.
Proof.
  unfold reduced_cost. rewrite length_matvec, length_matsub, length_identity.
  rewrite !length_matmul, length_transpose. apply Nat.min_id.
Qed.

(** Row [i] of [np.diag(x)] against a vector: only position [i] counts. *)
Lemma dot_diag_row (a : Q) (i : nat) (u : vec) (s : nat) :
  dot (map (fun j => if Nat.eqb i j then a else 0) (seq s (length u))) u
  == if (s <=? i)%nat && (i <? s + length u)%nat then a * nth (i - s) u 0
     else 0.
Proof.
  revert s. induction u as [|c u IH]; intro s; simpl.
  - replace (i <? s + 0)%nat with (i <? s)%nat by (f_equal; lia).
    destruct (s <=? i)%nat eqn:E1, (i <? s)%nat eqn:E2; simpl; try reflexivity.
    apply Nat.leb_le in E1. apply Nat.ltb_lt in E2. lia.
  - unfold dot in *. simpl. rewrite (IH (S s)).
    destruct (Nat.eqb_spec i s) as [->|Hne].
    + rewrite Nat.leb_refl, Nat.sub_diag.
      replace (s <? s + S (length u))%nat with true
        by (symmetry; apply Nat.ltb_lt; lia).
      replace (S s <=? s)%nat with false
        by (symmetry; apply Nat.leb_gt; lia).
      simpl. ring.
    + destruct (s <=? i)%nat eqn:E1.
      * apply Nat.leb_le in E1.
        replace (S s <=? i)%nat with true by (symmetry; apply Nat.leb_le; lia).
        replace (i <? S s + length u)%nat with (i <? s + S (length u))%nat
          by (f_equal; lia).
        destruct (i <? s + S (length u))%nat; simpl; [|ring].
        replace (i - s)%nat with (S (i - S s)) by lia. simpl. ring.
      * apply Nat.leb_gt in E1.
        replace (S s <=? i)%nat with false by (symmetry; apply Nat.leb_gt; lia).
        simpl. ring.
Qed.

Lemma nth_matvec_diag (x u : vec) (i : nat) :
  length u = length x -> (i < length x)%nat ->
  nth i (matvec (diag x) u) 0 == nth i x 0 * nth i u 0.
Proof.
  intros Hlen Hi. unfold matvec, diag. rewrite map_map.
  rewrite (nth_indep _ 0 ((fun k => dot (map (fun j => if Nat.eqb k j then nth k x 0 else 0) (seq 0 (length x))) u) 0%nat))
    by (rewrite length_map, length_seq; exact Hi).
  rewrite (map_nth (fun k => dot (map (fun j => if Nat.eqb k j then nth k x 0 else 0) (seq 0 (length x))) u)).
  rewrite seq_nth by exact Hi. simpl.
  rewrite <- Hlen. rewrite dot_diag_row. simpl.
  replace (i <? length u)%nat with true by (symmetry; apply Nat.ltb_lt; lia).
  rewrite Nat.sub_0_r. reflexivity.
Qed.

Lemma matvec_diag_positive (x u : vec) :
  length u = length x -> all_positive x -> all_positive u ->
  all_positive (matvec (diag x) u).
Proof.
  intros Hlen Hx Hu. unfold all_positive in *.
  rewrite Forall_forall in *. intros a Ha.
  destruct (In_nth _ _ 0 Ha) as [i [Hi Hnth]].
  rewrite length_matvec in Hi. unfold diag in Hi.
  rewrite length_map, length_seq in Hi.
  rewrite <- Hnth, nth_matvec_diag by assumption.
  apply Qmult_lt_0_compat; [apply Hx | apply Hu]; apply nth_In; lia.
Qed.
Lemma A_rev_row_sum (x1 x2 : Q) :
  exists d, A_rev_of [[1; 1]] [x1; x2] = [[d]] /\ d == x1 * x1 + x2 * x2.
Proof.
  eexists. split.
  - cbv [A_rev_of matmul transpose diag column dot vsum map seq length
         combine fold_right nth Nat.eqb fst snd]. reflexivity.
  - ring.
Qed.

Lemma det_1x1 (d : Q) : det 1 [[d]] == d.
Proof.
  cbv [det map seq vsum fold_right nth sign Nat.even remove_at]. ring.
Qed.

Lemma reduced_cost_row_sum (x1 x2 a : Q) :
  exists c1 c2, reduced_cost [1; 0] [[1; 1]] [x1; x2] [[a]] = [c1; c2]
    /\ c2 == - (x1 * x1 * x2 * a).
Proof.
  eexists. eexists. split.
  - cbv [reduced_cost matmul transpose diag column dot vsum map seq length
         combine fold_right nth Nat.eqb fst snd matvec matsub identity
         unit_row vsub]. reflexivity.
  - ring.
Qed.

Lemma inv_1x1 (d : Q) :
  ~ d == 0 -> exists a, inv [[d]] = Some [[a]] /\ a == / d.
Proof.
  intro Hd. unfold inv. change (length [[d]]) with 1%nat.
  destruct (Qeq_bool (det 1 [[d]]) 0) eqn:E.
  - exfalso. apply Hd. apply Qeq_bool_iff in E.
    rewrite det_1x1 in E. exact E.
  - eexists. split.
    + cbv [length map seq pred minor remove_at Nat.add]. reflexivity.
    + rewrite det_1x1.
      cbv [det sign Nat.even]. field. exact Hd.
Qed.

Lemma norm2_le_negative (d : vec) (eps : Q) : eps < 0 -> norm2_le d eps = false.
Proof.
  intro H. unfold norm2_le.
  replace (Qle_bool 0 eps) with false; [reflexivity|].
  symmetry. apply not_true_iff_false. rewrite Qle_bool_iff. lra.
Qed.

Lemma method_step_positive alpha eps C A x x' :
  0 < alpha -> alpha < 1 -> all_positive x ->
  method_step alpha eps C A x = Next (Finite x') -> all_positive x'.
Proof.
  intros Ha0 Ha1 Hx. unfold method_step.
  destruct (inv _) as [A_inv|]; [|discriminate].
  destruct (minimum_of _) as [m|] eqn:Em; [|discriminate].
  destruct (geb _ _); [discriminate|].
  destruct (Qeq_bool (Qabs m) 0) eqn:Ev; [discriminate|].
  destruct (norm2_le _ _); [discriminate|].
  intro H. injection H as <-.
  apply matvec_diag_positive.
  - unfold direction. rewrite length_map. apply length_reduced_cost.
  - exact Hx.
  - unfold all_positive, direction. apply Forall_map.
    eapply Forall_impl; [|exact (minimum_of_le _ _ Em)].
    intros c Hc. simpl. apply direction_entry_positive; try assumption.
    intro H0. apply Qeq_bool_iff in H0. congruence.
Qed.

Lemma length_method_step alpha eps C A x x' :
  method_step alpha eps C A x = Next (Finite x') -> length x' = length x.
Proof.
  unfold method_step.
  destruct (inv _) as [A_inv|]; [|discriminate].
  destruct (minimum_of _) as [m|] eqn:Em; [|discriminate].
  destruct (geb _ _); [discriminate|].
  destruct (Qeq_bool (Qabs m) 0) eqn:Ev; [discriminate|].
  destruct (norm2_le _ _); [discriminate|].
  intro H. injection H as <-.
  rewrite length_matvec. unfold diag. rewrite length_map. apply length_seq.
Qed.

(** On  max x1  s.t.  x1 + x2 <= b  with a negative tolerance, a turn from a
    positive point neither stops nor fails. *)
Lemma row_sum_step alpha eps (x1 x2 : Q) :
  eps < 0 -> 0 < x1 -> 0 < x2 ->
  exists x', method_step alpha eps [1; 0] [[1; 1]] [x1; x2] = Next (Finite x').
Proof.
  intros He H1 H2. unfold method_step.
  destruct (A_rev_row_sum x1 x2) as [d [-> Hd]].
  assert (Hdpos : 0 < d) by (rewrite Hd; nra).
  destruct (inv_1x1 d) as [a [-> Ha]]; [lra|].
  assert (Hapos : 0 < a) by (rewrite Ha; apply Qinv_lt_0_compat; exact Hdpos).
  destruct (reduced_cost_row_sum x1 x2 a) as [c1 [c2 [-> Hc2]]].
  assert (Hc2neg : c2 < 0).
  { rewrite Hc2. assert (0 < x1 * x1 * x2 * a); [|lra].
    repeat apply Qmult_lt_0_compat; assumption. }
  destruct (minimum_of [c1; c2]) as [m|] eqn:Em; [|discriminate].
  assert (Hm : m < 0).
  { pose proof (minimum_of_le _ _ Em) as Hle.
    inversion Hle as [|? ? _ Hle']; subst. inversion Hle'; subst. lra. }
  replace (geb m (1 # 10)) with false by (symmetry; apply geb_false; lra).
  replace (Qeq_bool (Qabs m) 0) with false.
  2:{ symmetry. apply not_true_iff_false. rewrite Qeq_bool_iff.
      rewrite Qabs_neg by lra. lra. }
  rewrite norm2_le_negative by exact He.
  eexists. reflexivity.
Qed.

Lemma row_sum_never_exits alpha eps (fuel : nat) (x : vec) :
  0 < alpha -> alpha < 1 -> eps < 0 ->
  length x = 2%nat -> all_positive x ->
  method_loop alpha eps [1; 0] [[1; 1]] fuel (Finite x) = None.
Proof.
  intros Ha0 Ha1 He. revert x.
  induction fuel as [|fuel IH]; intros x Hlen Hpos; simpl; [reflexivity|].
  destruct x as [|x1 [|x2 [|? ?]]]; try discriminate.
  inversion Hpos as [|? ? H1 Hpos']; subst. inversion Hpos' as [|? ? H2 _]; subst.
  destruct (row_sum_step alpha eps x1 x2 He H1 H2) as [x' E].
  rewrite E. apply IH.
  - rewrite (length_method_step _ _ _ _ _ _ E). reflexivity.
  - exact (method_step_positive _ _ _ _ _ _ Ha0 Ha1 Hpos E).
Qed.

(** ** [method]: the iteration *)

(** C2 as stated fails: on the instance of the specification without slack
    columns (three constraints, two variables) the first
    [A_tilda @ A_tilda.T] is singular and the call does not come back with
    a status. *)
Lemma singular_status_counterexample :
  singular (A_rev_of [[1; 0]; [0; 1]; [1; 1]] [1; 1])
  /\ ~ (exists o,
          method (1 # 2) (1 # 1000) [4; 4; 5] [3; 2]
                 [[1; 0]; [0; 1]; [1; 1]] 1 [1; 1] = Some o
          /\ returned_status o).
Proof.
  split; [reflexivity|].
  intros [o [H Hs]]. vm_compute in H. injection H as <-. exact Hs.
Qed.

(** C3 as stated fails: this call never leaves the loop. *)
Lemma iteration_cap_counterexample :
  ~ (exists fuel o,
        method (1 # 2) (-1) [2] [1; 0] [[1; 1]] fuel [1; 1] = Some o).
Proof.
  intros [fuel [o H]].
  assert (E : method (1 # 2) (-1) [2] [1; 0] [[1; 1]] fuel [1; 1]
              = method_loop (1 # 2) (-1) [1; 0] [[1; 1]] fuel (Finite [1; 1]))
    by reflexivity.
  rewrite E, row_sum_never_exits in H; try reflexivity; try discriminate.
  repeat constructor.
Qed.

(** C5 at the failing input  C = [0, 0], A = [[1, 1]], x0 = [1, 1],
    alpha = 0.5, eps = 0.001.  The starting point is strictly positive and
    alpha is in (0,1), yet the first turn does not leave a strictly
    positive iterate: the reduced cost is 0, line 53 divides by
    |minimum| = 0 with no guard, and the [x] that line 65 keeps is all
    NaN. *)
Lemma positive_iterates_counterexample :
  0 < 1 # 2 /\ 1 # 2 < 1 /\ all_positive [1; 1]
  /\ iterates (1 # 2) (1 # 1000) [0; 0] [[1; 1]] 1 (Finite [1; 1]) = [NaNs 2]
  /\ ~ Forall positive_iterate
         (iterates (1 # 2) (1 # 1000) [0; 0] [[1; 1]] 1 (Finite [1; 1])).
Proof.
  split; [reflexivity|]. split; [reflexivity|].
  split; [repeat constructor|].
  assert (E : iterates (1 # 2) (1 # 1000) [0; 0] [[1; 1]] 1 (Finite [1; 1])
              = [NaNs 2]) by (vm_compute; reflexivity).
  split; [exact E|].
  rewrite E. intro H. inversion H as [|? ? Hnan _]. exact Hnan.
Qed.

(** ** [np.argmin] *)

Section Argmin.

Variable X : Type.
Variable ltb : X -> X -> bool.
Variable d : X.

Hypothesis ltb_irrefl : forall a, ltb a a = false.
Hypothesis ltb_trans :
  forall a b c, ltb a b = true -> ltb b c = true -> ltb a c = true.
Hypothesis ltb_le_trans :
  forall a b c, ltb a b = true -> ltb c b = false -> ltb a c = true.

Lemma ltb_asym a b : ltb a b = true -> ltb b a = false.
Proof.
  intro H. destruct (ltb b a) eqn:E; [|reflexivity].
  rewrite <- (ltb_irrefl a). symmetry. exact (ltb_trans _ _ _ H E).
Qed.

(** The scan keeps [best_i], or moves to the first position of [l] that
    holds the least element of [l], when that one is below [best]. *)
Lemma argmin_from_spec (l : list X) :
  forall best_i best i,
    (argmin_from ltb best_i best i l = best_i
     /\ Forall (fun a => ltb a best = false) l)
    \/ exists k,
        argmin_from ltb best_i best i l = (i + k)%nat
        /\ (k < length l)%nat
        /\ ltb (nth k l d) best = true
        /\ (forall j, (j < length l)%nat -> ltb (nth j l d) (nth k l d) = false)
        /\ (forall j, (j < k)%nat -> ltb (nth k l d) (nth j l d) = true).
Proof.
  induction l as [|a l IH]; intros best_i best i; simpl.
  - left. split; [reflexivity | constructor].
  - destruct (ltb a best) eqn:E.
    + right. destruct (IH i a (S i)) as [[Hr Hall] | [k [Hr [Hk [Hlt [Hmin Hfirst]]]]]].
      * exists 0%nat. rewrite Hr. split; [lia|]. split; [lia|].
        split; [exact E|]. split; [|intros j Hj; lia].
        intros [|j] Hj; [apply ltb_irrefl|].
        rewrite Forall_forall in Hall. apply Hall. apply nth_In. lia.
      * exists (S k). rewrite Hr. split; [lia|]. split; [lia|].
        split; [exact (ltb_trans _ _ _ Hlt E)|]. split.
        -- intros [|j] Hj; [apply ltb_asym; exact Hlt | apply Hmin; lia].
        -- intros [|j] Hj; [exact Hlt | apply Hfirst; lia].
    + destruct (IH best_i best (S i)) as [[Hr Hall] | [k [Hr [Hk [Hlt [Hmin Hfirst]]]]]].
      * left. split; [exact Hr | constructor; assumption].
      * right. exists (S k). rewrite Hr. split; [lia|]. split; [lia|].
        split; [exact Hlt|].
        assert (Hka : ltb (nth k l d) a = true)
          by exact (ltb_le_trans _ _ _ Hlt E).
        split.
        -- intros [|j] Hj; [apply ltb_asym; exact Hka | apply Hmin; lia].
        -- intros [|j] Hj; [exact Hka | apply Hfirst; lia].
Qed.

(** [np.argmin]: the first index of a least element. *)
Lemma argmin_by_spec (l : list X) :
  l <> [] ->
  exists r,
    argmin_by ltb l = Some r
    /\ (r < length l)%nat
    /\ (forall j, (j < length l)%nat -> ltb (nth j l d) (nth r l d) = false)
    /\ (forall j, (j < r)%nat -> ltb (nth r l d) (nth j l d) = true).
Proof.
  destruct l as [|a l]; [congruence|]. intros _. simpl.
  destruct (argmin_from_spec l 0%nat a 1%nat)
    as [[Hr Hall] | [k [Hr [Hk [Hlt [Hmin Hfirst]]]]]].
  - exists 0%nat. rewrite Hr. split; [reflexivity|]. split; [lia|].
    split; [|intros j Hj; lia].
    intros [|j] Hj; [apply ltb_irrefl|].
    rewrite Forall_forall in Hall. apply Hall. apply nth_In. lia.
  - exists (S k). rewrite Hr. split; [reflexivity|]. split; [lia|]. split.
    + intros [|j] Hj; [apply ltb_asym; exact Hlt | apply Hmin; lia].
    + intros [|j] Hj; [exact Hlt | apply Hfirst; lia].
Qed.

End Argmin.

Lemma Qltb_true (a b : Q) : Qltb a b = true <-> a < b.
Proof. apply gtb_true. Qed.

Lemma Qltb_false (a b : Q) : Qltb a b = false <-> b <= a.
Proof. apply gtb_false. Qed.

Lemma Qltb_irrefl (a : Q) : Qltb a a = false.
Proof. apply Qltb_false. apply Qle_refl. Qed.

Lemma Qltb_trans (a b c : Q) :
  Qltb a b = true -> Qltb b c = true -> Qltb a c = true.
Proof. rewrite !Qltb_true. apply Qlt_trans. Qed.

Lemma Qltb_le_trans (a b c : Q) :
  Qltb a b = true -> Qltb c b = false -> Qltb a c = true.
Proof. rewrite !Qltb_true, Qltb_false. apply Qlt_le_trans. Qed.

Lemma ratio_ltb_irrefl (r : ratio) : ratio_ltb r r = false.
Proof. destruct r; simpl; [apply Qltb_irrefl | reflexivity]. Qed.

Lemma ratio_ltb_trans (r s u : ratio) :
  ratio_ltb r s = true -> ratio_ltb s u = true -> ratio_ltb r u = true.
Proof.
  destruct r, s, u; simpl; try discriminate; try reflexivity.
  apply Qltb_trans.
Qed.

Lemma ratio_ltb_le_trans (r s u : ratio) :
  ratio_ltb r s = true -> ratio_ltb u s = false -> ratio_ltb r u = true.
Proof.
  destruct r, s, u; simpl; try discriminate; try reflexivity.
  apply Qltb_le_trans.
Qed.

(** ** The ratio test *)

Lemma nth_map_seq {X : Type} (f : nat -> X) (m i : nat) (d : X) :
  (i < m)%nat -> nth i (map f (seq 0 m)) d = f i.
Proof.
  intro Hi.
  rewrite (nth_indep _ d (f 0%nat)) by (rewrite length_map, length_seq; exact Hi).
  rewrite map_nth, seq_nth by exact Hi. reflexivity.
Qed.

Lemma length_ratios_of m t c : length (ratios_of m t c) = m.
Proof. unfold ratios_of. rewrite length_map. apply length_seq. Qed.

Lemma nth_ratios_of m t c i :
  (i < m)%nat ->
  nth i (ratios_of m t c) None
  = if gtb (entry t i c) 0 then Some (rhs t i / entry t i c) else None.
Proof. intro Hi. unfold ratios_of. apply nth_map_seq. exact Hi. Qed.

Lemma ratio_argmin m t c :
  (0 < m)%nat ->
  exists r,
    argmin_by ratio_ltb (ratios_of m t c) = Some r
    /\ (r < m)%nat
    /\ (forall j, (j < m)%nat ->
          ratio_ltb (nth j (ratios_of m t c) None)
                    (nth r (ratios_of m t c) None) = false)
    /\ (forall j, (j < r)%nat ->
          ratio_ltb (nth r (ratios_of m t c) None)
                    (nth j (ratios_of m t c) None) = true).
Proof.
  intro Hm.
  destruct (argmin_by_spec ratio ratio_ltb None ratio_ltb_irrefl
              ratio_ltb_trans ratio_ltb_le_trans (ratios_of m t c))
    as [r [Hr [Hlt [Hmin Hfirst]]]].
  - intro E. apply (f_equal (@length _)) in E.
    rewrite length_ratios_of in E. simpl in E. lia.
  - rewrite length_ratios_of in *. exists r. repeat split; assumption.
Qed.

Lemma entering_turn m t pivot_col :
  argmin_by Qltb (objective_row t) = Some pivot_col ->
  nth pivot_col (last t []) 0 < 0 ->
  simplex_turn m t
  = match argmin_by ratio_ltb (ratios_of m t pivot_col) with
    | None => TurnRaise ValueError
    | Some pivot_row =>
        match nth pivot_row (ratios_of m t pivot_col) None with
        | None => TurnUnbounded
        | Some _ => TurnPivot pivot_row pivot_col
        end
    end.
Proof.
  intros Hcol Hneg. unfold simplex_turn. rewrite Hcol.
  replace (geb (nth pivot_col (last t []) 0) 0) with false
    by (symmetry; apply geb_false; exact Hneg).
  reflexivity.
Qed.

(** ** The tableau before the first pivot *)

Lemma overwrite_nil {X : Type} (k : nat) (dst : list X) :
  overwrite k [] dst = dst.
Proof.
  revert k. induction dst as [|d dst IH]; intro k; simpl; [reflexivity|].
  destruct k; [reflexivity|]. rewrite IH. reflexivity.
Qed.

Lemma overwrite_app {X : Type} (k : nat) (src pre dst : list X) :
  length pre = k ->
  overwrite k src (pre ++ dst) = pre ++ overwrite 0 src dst.
Proof.
  intros <-. induction pre as [|p pre IH]; simpl; [reflexivity|].
  rewrite IH. reflexivity.
Qed.

Lemma overwrite_prefix {X : Type} (src mid post : list X) :
  length mid = length src -> overwrite 0 src (mid ++ post) = src ++ post.
Proof.
  revert mid. induction src as [|s src IH]; intros mid Hlen.
  - destruct mid; [|discriminate]. simpl. apply overwrite_nil.
  - destruct mid as [|c mid]; [discriminate|]. simpl.
    rewrite IH by (simpl in Hlen; lia). reflexivity.
Qed.

Lemma set_block_app (c : nat) (B pre T : matrix) :
  set_block (length pre) c B (pre ++ T) = pre ++ set_block 0 c B T.
Proof.
  induction pre as [|p pre IH]; simpl; [reflexivity|].
  rewrite IH. reflexivity.
Qed.

Lemma set_block_rows (c : nat) (B : matrix) :
  forall (f : nat -> vec) (rest : matrix),
    set_block 0 c B (map f (seq 0 (length B)) ++ rest)
    = map (fun i => overwrite c (nth i B []) (f i)) (seq 0 (length B)) ++ rest.
Proof.
  induction B as [|brow B IH]; intros f rest.
  - simpl. destruct rest; reflexivity.
  - simpl length. rewrite <- !cons_seq, <- !seq_shift, !map_cons, !map_map.
    simpl. rewrite (IH (fun i => f (S i)) rest). reflexivity.
Qed.

Lemma repeat_as_map {X : Type} (z : X) (m : nat) :
  repeat z m = map (fun _ => z) (seq 0 m).
Proof.
  induction m as [|m IH]; [reflexivity|].
  rewrite <- cons_seq, <- seq_shift, map_cons, map_map. simpl.
  rewrite IH. reflexivity.
Qed.

Lemma length_unit_row (n i : nat) : length (unit_row n i) = n.
Proof. unfold unit_row. rewrite length_map. apply length_seq. Qed.

(** The tableau before the first pivot: the constraints, the identity
    block of the slack variables and the right-hand sides, above the
    negated objective. *)
Lemma build_tableau_rows (C : vec) (A : matrix) (b : vec) :
  well_shaped C A b ->
  build_tableau C A b
  = map (fun i => nth i A [] ++ unit_row (length b) i ++ [nth i b 0])
        (seq 0 (length b))
    ++ [map Qopp C ++ repeat 0 (length b) ++ [0]].
Proof.
  intros [HA Hrows]. unfold build_tableau.
  set (n := length C). set (m := length b).
  set (z := repeat 0 (S (n + m))).
  assert (Hz : z = repeat 0 n ++ repeat 0 m ++ [0]).
  { unfold z. replace (S (n + m)) with (n + (m + 1))%nat by lia.
    rewrite !repeat_app. reflexivity. }
  unfold zeros. fold z.
  replace (repeat z (S m)) with (map (fun _ => z) (seq 0 (length A)) ++ [z]).
  2:{ rewrite HA. fold m. rewrite <- repeat_as_map.
      replace (S m) with (m + 1)%nat by lia. rewrite repeat_app. reflexivity. }
  unfold fill_constraints. rewrite set_block_rows.
  unfold fill_slack. rewrite HA. fold m.
  replace (seq 0 m) with (seq 0 (length (identity m))) at 1
    by (rewrite length_identity; reflexivity).
  rewrite set_block_rows, length_identity.
  unfold fill_rhs.
  replace (seq 0 m) with (seq 0 (length (map (fun x : Q => [x]) b))) at 1
    by (rewrite length_map; reflexivity).
  rewrite set_block_rows, length_map. fold m.
  unfold fill_objective.
  match goal with
  | |- set_block m 0 _ (?rows ++ _) = _ =>
      replace m with (length rows) at 1
        by (rewrite length_map, length_seq; reflexivity)
  end.
  rewrite set_block_app.
  change (set_block 0 0 [map Qopp C] [z]) with [overwrite 0 (map Qopp C) z].
  f_equal.
  - apply map_ext_in. intros i Hi. apply in_seq in Hi.
    assert (Hlen : length (nth i A []) = n).
    { rewrite Forall_forall in Hrows. apply Hrows. apply nth_In. lia. }
    unfold identity. rewrite nth_map_seq by lia.
    rewrite (nth_indep _ [] [0]) by (rewrite length_map; lia).
    rewrite (map_nth (fun x : Q => [x])).
    rewrite Hz.
    rewrite overwrite_prefix by (rewrite repeat_length; symmetry; exact Hlen).
    rewrite (overwrite_app n) by exact Hlen.
    rewrite overwrite_prefix
      by (rewrite repeat_length, length_unit_row; reflexivity).
    rewrite app_assoc, (overwrite_app (n + m)), <- app_assoc.
    + reflexivity.
    + rewrite length_app, length_unit_row, Hlen. reflexivity.
  - rewrite Hz.
    rewrite overwrite_prefix by (rewrite repeat_length, length_map; reflexivity).
    reflexivity.
Qed.

(** ** Optimal tableaux *)

Lemma nth_removelast {X : Type} (l : list X) (i : nat) (d : X) :
  (i < length (removelast l))%nat -> nth i (removelast l) d = nth i l d.
Proof.
  revert i. induction l as [|a l IH]; intros i Hi; [reflexivity|].
  destruct l as [|a' l]; [simpl in Hi; lia|].
  change (removelast (a :: a' :: l)) with (a :: removelast (a' :: l)) in *.
  destruct i as [|i]; [reflexivity|].
  simpl in Hi. apply (IH i). simpl. lia.
Qed.

Lemma argmin_objective (t : matrix) :
  objective_row t <> [] ->
  exists pivot_col,
    argmin_by Qltb (objective_row t) = Some pivot_col
    /\ (pivot_col < length (objective_row t))%nat
    /\ nth pivot_col (last t []) 0 = nth pivot_col (objective_row t) 0
    /\ forall j, (j < length (objective_row t))%nat ->
         nth pivot_col (objective_row t) 0 <= nth j (objective_row t) 0.
Proof.
  intro Hne.
  destruct (argmin_by_spec Q Qltb 0 Qltb_irrefl Qltb_trans Qltb_le_trans
              (objective_row t) Hne) as [r [Hr [Hlt [Hmin _]]]].
  exists r. split; [exact Hr|]. split; [exact Hlt|]. split.
  - symmetry. apply nth_removelast. exact Hlt.
  - intros j Hj. apply Qltb_false. apply Hmin. exact Hj.
Qed.

Lemma nonneg_turn (m : nat) (t : matrix) :
  objective_row t <> [] ->
  Forall (fun a => 0 <= a) (objective_row t) ->
  simplex_turn m t = TurnBreak.
Proof.
  intros Hne Hall.
  destruct (argmin_objective t Hne) as [c [Hc [Hlt [Hlast _]]]].
  unfold simplex_turn. rewrite Hc, Hlast.
  replace (geb (nth c (objective_row t) 0) 0) with true; [reflexivity|].
  symmetry. apply geb_true. rewrite Forall_forall in Hall.
  apply Hall. apply nth_In. exact Hlt.
Qed.

Lemma turn_break_nonneg (m : nat) (t : matrix) :
  simplex_turn m t = TurnBreak ->
  objective_row t <> [] /\ Forall (fun a => 0 <= a) (objective_row t).
Proof.
  intro H.
  assert (Hne : objective_row t <> []).
  { intro E. unfold simplex_turn in H. rewrite E in H. discriminate. }
  split; [exact Hne|].
  destruct (argmin_objective t Hne) as [c [Hc [Hlt [Hlast Hmin]]]].
  unfold simplex_turn in H. rewrite Hc, Hlast in H.
  destruct (geb (nth c (objective_row t) 0) 0) eqn:E.
  - apply geb_true in E. apply Forall_forall. intros a Ha.
    destruct (In_nth _ _ 0 Ha) as [j [Hj <-]].
    eapply Qle_trans; [exact E | apply Hmin; exact Hj].
  - destruct (argmin_by ratio_ltb _) as [r|]; [|discriminate].
    destruct (nth r (ratios_of m t c) None); discriminate.
Qed.

Lemma loop_end_optimal (fuel m : nat) (t : matrix) (done : nat) (r : loop_result) :
  simplex_loop fuel m t done = Some r ->
  ending r = EndOptimal ->
  simplex_turn m (final_tableau r) = TurnBreak.
Proof.
  revert t done. induction fuel as [|fuel IH]; intros t done; simpl;
    [discriminate|].
  destruct (simplex_turn m t) eqn:E.
  - intros H _. injection H as <-. exact E.
  - intros H He. injection H as <-. discriminate.
  - apply IH.
  - intros H He. injection H as <-. discriminate.
Qed.

Lemma break_loop (m : nat) (t : matrix) (fuel done : nat) :
  simplex_turn m t = TurnBreak ->
  simplex_loop (S fuel) m t done
  = Some {| ending := EndOptimal; final_tableau := t; pivots := done |}.
Proof. intro H. simpl. rewrite H. reflexivity. Qed.

(** C8. Running the loop on an already optimal tableau, one whose
    objective row (without the right-hand side) is non-empty and entirely
    non-negative, ends at the first entering-variable test with no pivot
    and on the same tableau; in particular, on the final tableau of an
    earlier run that ended optimal it reports the same solution and
    objective value as that run. *)
Theorem optimal_tableau_zero_pivots (m : nat) (t : matrix) :
  objective_row t <> [] ->
  Forall (fun a => 0 <= a) (objective_row t) ->
  (forall fuel done,
      simplex_loop (S fuel) m t done
      = Some {| ending := EndOptimal; final_tableau := t; pivots := done |})
  /\ (forall num_vars fuel fuel0 t0 done0 r0,
        simplex_loop fuel0 m t0 done0 = Some r0 ->
        ending r0 = EndOptimal ->
        final_tableau r0 = t ->
        option_map (report num_vars) (simplex_loop (S fuel) m t 0)
        = Some (report num_vars r0)).
Proof.
  intros Hne Hall.
  pose proof (nonneg_turn m t Hne Hall) as Hturn. split.
  - intros fuel done. apply break_loop. exact Hturn.
  - intros num_vars fuel fuel0 t0 done0 r0 _ Hend Ht.
    rewrite (break_loop m t fuel 0 Hturn). simpl.
    unfold report. rewrite Hend, Ht. reflexivity.
Qed.

Lemma optimal_tableau_zero_pivots_witness :
  simplex_loop 1 1 [[1; 1; 2]; [1; 0; 0]] 0
  = Some {| ending := EndOptimal;
            final_tableau := [[1; 1; 2]; [1; 0; 0]];
            pivots := 0 |}.
Proof.
  apply (proj1 (optimal_tableau_zero_pivots 1 [[1; 1; 2]; [1; 0; 0]]
                  ltac:(discriminate)
                  (Forall_cons 1 (Qle_bool_imp_le 0 1 eq_refl)
                     (Forall_cons 0 (Qle_refl 0) (Forall_nil _))))).
Defined.

Lemma final_tableau_nonneg (fuel m : nat) (t : matrix) (done : nat) (r : loop_result) :
  simplex_loop fuel m t done = Some r ->
  ending r = EndOptimal ->
  objective_row (final_tableau r) <> []
  /\ Forall (fun a => 0 <= a) (objective_row (final_tableau r)).
Proof.
  intros H He. apply (turn_break_nonneg m).
  exact (loop_end_optimal _ _ _ _ _ H He).
Qed.

(** ** The first turn on any right-hand side *)

Lemma last_build_tableau C A b :
  well_shaped C A b ->
  last (build_tableau C A b) []
  = (map Qopp C ++ repeat 0 (length b)) ++ [0].
Proof.
  intro H. rewrite (build_tableau_rows C A b H), last_last, app_assoc.
  reflexivity.
Qed.

Lemma objective_row_build_tableau C A b :
  well_shaped C A b ->
  objective_row (build_tableau C A b) = map Qopp C ++ repeat 0 (length b).
Proof.
  intro H. unfold objective_row. rewrite (last_build_tableau C A b H).
  apply removelast_last.
Qed.

Lemma entry_build_tableau C A b i j :
  well_shaped C A b -> (i < length b)%nat -> (j < length C)%nat ->
  entry (build_tableau C A b) i j = entry A i j.
Proof.
  intros H Hi Hj. pose proof H as [HA Hrows]. unfold entry.
  rewrite (build_tableau_rows C A b H).
  rewrite app_nth1 by (rewrite length_map, length_seq; exact Hi).
  rewrite (nth_indep _ [] ((fun i0 => nth i0 A [] ++ unit_row (length b) i0 ++ [nth i0 b 0]) 0%nat))
    by (rewrite length_map, length_seq; exact Hi).
  rewrite (map_nth (fun i0 => nth i0 A [] ++ unit_row (length b) i0 ++ [nth i0 b 0])).
  rewrite seq_nth by exact Hi. simpl.
  apply app_nth1. rewrite Forall_forall in Hrows.
  rewrite (Hrows (nth i A [])); [exact Hj|]. apply nth_In. lia.
Qed.

Lemma nth_objective_row C m j :
  nth j (map Qopp C ++ repeat 0 m) 0
  = if (j <? length C)%nat then - nth j C 0 else 0.
Proof.
  destruct (j <? length C)%nat eqn:E.
  - apply Nat.ltb_lt in E. rewrite app_nth1 by (rewrite length_map; exact E).
    rewrite (nth_indep _ 0 (- 0)) by (rewrite length_map; exact E).
    apply map_nth.
  - apply Nat.ltb_ge in E. rewrite app_nth2 by (rewrite length_map; exact E).
    apply nth_repeat.
Qed.


(** ** Reading the solution off the final tableau *)

Lemma count_zero (f : Q -> bool) (v : vec) :
  count f v = 0%nat <-> Forall (fun a => f a = false) v.
Proof.
  unfold count. induction v as [|a v IH]; simpl.
  - split; [constructor | reflexivity].
  - destruct (f a) eqn:E; simpl.
    + split; [discriminate|]. intro H. inversion H; congruence.
    + rewrite IH. split.
      * intro H. constructor; assumption.
      * intro H. inversion H; assumption.
Qed.

(** One direction of the equivalence holds: a unit column passes
    the test of line 115. *)
Lemma unit_column_treated_basic (t : matrix) (j : nat) :
  unit_column (column t j) = true -> treated_basic t j = true.
Proof.
  unfold unit_column, treated_basic. cbv zeta.
  rewrite !andb_true_iff. intros [H1 H0]. split; [exact H1|].
  apply Nat.eqb_eq. apply Nat.eqb_eq in H0.
  apply count_zero. apply count_zero in H0.
  eapply Forall_impl; [|exact H0]. intros a Ha. simpl in Ha.
  unfold above_one. apply gtb_false.
  unfold is_one in Ha.
  destruct (Qeq_bool a 1) eqn:E1.
  - apply Qeq_bool_iff in E1. rewrite E1. apply Qle_refl.
  - destruct (Qeq_bool a 0) eqn:E0; [|discriminate].
    apply Qeq_bool_iff in E0. rewrite E0. discriminate.
Qed.

(** A column that fails the test of line 115 keeps the 0 of
    [np.zeros(num_vars)]. *)
Lemma not_treated_basic_zero (t : matrix) (j : nat) :
  treated_basic t j = false -> solution_at t j = 0.
Proof. intro H. unfold solution_at. rewrite H. reflexivity. Qed.

(** C1 at the failing input  C = [-0.5], A = [[1], [0.5]], b = [2, 3].
    The loop ends without a pivot on the initial tableau; column 0 of it
    is [1, 0.5, 0.5], which is not a unit column, and still passes the test
    of line 115 (one entry equal to 1, no entry above 1), so that the
    nonbasic variable is reported as 2, the right-hand side of row 0. *)
Theorem basic_test_accepts_non_unit_column :
  let t := build_tableau [-1 # 2] [[1]; [1 # 2]] [2; 3] in
  simplex_run 5 [-1 # 2] [[1]; [1 # 2]] [2; 3]
  = Some {| ending := EndOptimal; final_tableau := t; pivots := 0 |}
  /\ column t 0 = [1; 1 # 2; 1 # 2]
  /\ unit_column (column t 0) = false
  /\ treated_basic t 0 = true
  /\ simplex_method_manual 5 [-1 # 2] [[1]; [1 # 2]] [2; 3]
     = Some (Optimal [2] 0).
Proof. repeat split; vm_compute; reflexivity. Qed.

(** ** The store: which arrays a call writes *)

Lemma length_update {X : Type} (i : nat) (x : X) (l : list X) :
  length (update i x l) = length l.
Proof.
  revert i. induction l as [|a l IH]; intro i; [destruct i; reflexivity|].
  destruct i; simpl; [reflexivity | rewrite IH; reflexivity].
Qed.

Lemma nth_error_update_other {X : Type} (i j : nat) (x : X) (l : list X) :
  i <> j -> nth_error (update i x l) j = nth_error l j.
Proof.
  revert i j. induction l as [|a l IH]; intros i j Hne;
    [destruct i; reflexivity|].
  destruct i, j; simpl; try reflexivity; try congruence.
  apply IH. congruence.
Qed.

Lemma nth_error_update_same {X : Type} (i : nat) (x : X) (l : list X) :
  (i < length l)%nat -> nth_error (update i x l) i = Some x.
Proof.
  revert i. induction l as [|a l IH]; intros i Hi; [simpl in Hi; lia|].
  destruct i; simpl; [reflexivity|]. apply IH. simpl in Hi. lia.
Qed.

Lemma grown_refl (h : heap) : grown (length h) h h.
Proof. split; [apply Nat.le_refl | reflexivity]. Qed.

Lemma grown_alloc (k : nat) (h h' : heap) (a : ndarray) :
  grown k h h' -> grown k h (snd (alloc a h')).
Proof.
  intros [Hk Hagree]. simpl. split.
  - rewrite length_app. lia.
  - intros l Hl. rewrite nth_error_app1 by lia. apply Hagree. exact Hl.
Qed.

Lemma grown_store (k l : nat) (h h' : heap) (a : ndarray) :
  grown k h h' -> (k <= l)%nat -> grown k h (store l a h').
Proof.
  intros [Hk Hagree] Hl. unfold store. split.
  - rewrite length_update. exact Hk.
  - intros l' Hl'. rewrite nth_error_update_other by lia.
    apply Hagree. exact Hl'.
Qed.

Lemma grown_modify2 (k l : nat) (h h' : heap) (f : matrix -> matrix) :
  grown k h h' -> (k <= l)%nat -> grown k h (modify2 l f h').
Proof. intros. apply grown_store; assumption. Qed.

Lemma grown_preserves (h h' : heap) : grown (length h) h h' -> preserves h h'.
Proof. intros [_ H]. exact H. Qed.

Lemma grown_build_tableau_st (C A b : nat) (h : heap) :
  fst (build_tableau_st C A b h) = length h
  /\ grown (length h) h (snd (build_tableau_st C A b h)).
Proof.
  unfold build_tableau_st. simpl. split; [reflexivity|].
  repeat apply grown_modify2; try apply Nat.le_refl.
  apply (grown_alloc _ _ _ (Arr2 _)). apply grown_refl.
Qed.

Lemma grown_pivot_st (k m tableau r c : nat) (h h' : heap) :
  grown k h h' -> (k <= tableau)%nat ->
  grown k h (pivot_st m tableau r c h').
Proof.
  intros H Hk. unfold pivot_st.
  generalize (seq 0 (S m)) as l.
  assert (H0 : grown k h (modify2 tableau (fun t => normalize_row t r c) h'))
    by (apply grown_modify2; assumption).
  revert H0. generalize (modify2 tableau (fun t => normalize_row t r c) h').
  intros h0 H0 l. revert h0 H0.
  induction l as [|i l IH]; intros h0 H0; simpl; [exact H0|].
  apply IH. apply grown_modify2; assumption.
Qed.

Lemma grown_simplex_loop_st (k fuel m tableau : nat) (h : heap) :
  (k <= tableau)%nat ->
  forall h' done,
    grown k h h' -> grown k h (snd (simplex_loop_st fuel m tableau h' done)).
Proof.
  intro Hk. induction fuel as [|fuel IH]; intros h' done H; simpl; [exact H|].
  destruct (simplex_turn m (load2 h' tableau)); simpl; try exact H.
  apply IH. apply grown_pivot_st; assumption.
Qed.

Lemma grown_simplex_method_manual_st (fuel C A b : nat) (h : heap) :
  grown (length h) h (snd (simplex_method_manual_st fuel C A b h)).
Proof.
  unfold simplex_method_manual_st.
  destruct (grown_build_tableau_st C A b h) as [Hloc Hgrown].
  destruct (build_tableau_st C A b h) as [tableau h1]. simpl in Hloc, Hgrown.
  pose proof (grown_simplex_loop_st (length h) fuel (length (load1 h b))
                tableau h (Nat.eq_le_incl _ _ (eq_sym Hloc)) h1 0 Hgrown) as H.
  destruct (simplex_loop_st fuel (length (load1 h b)) tableau h1 0)
    as [[[[| |e] done]|] h2]; simpl in *; try exact H.
  split.
  - rewrite length_app. destruct H as [H _]. lia.
  - intros l Hl. destruct H as [Hk H]. rewrite nth_error_app1 by lia.
    apply H. exact Hl.
Qed.

Lemma grown_method_loop_st (k : nat) (alpha eps : Q) (C A fuel : nat) (h : heap) :
  forall x h',
    grown k h h' ->
    grown k h (snd (method_loop_st alpha eps C A fuel x h')).
Proof.
  induction fuel as [|fuel IH]; intros x h' H; simpl; [exact H|].
  destruct (load_iterate h' x) as [xv|n].
  - destruct (method_step alpha eps (load1 h' C) (load2 h' A) xv) as [o|x'];
      [exact H|].
    apply IH. apply (grown_alloc _ _ _ (array_of x')). exact H.
  - apply IH. apply (grown_alloc _ _ _ (ArrNaN n)). exact H.
Qed.

Lemma grown_method_st (x0 : nat) (alpha eps : Q) (b C A fuel : nat) (h : heap) :
  grown (length h) h (snd (method_st x0 alpha eps b C A fuel h)).
Proof.
  unfold method_st.
  destruct (negb (rows_sol (load2 h A))); [apply grown_refl|].
  simpl.
  assert (H1 : grown (length h) h
                 (h ++ [Arr1 (matvec (load2 h A) (load1 h x0))]))
    by (apply (grown_alloc _ _ _ (Arr1 _)); apply grown_refl).
  destruct (bound_exceeded _ _ _); [exact H1|].
  apply grown_method_loop_st.
  apply (grown_alloc _ _ _ (Arr1 _)). exact H1.
Qed.


Lemma load1_grown (k : nat) (h h' : heap) (l : nat) :
  grown k h h' -> (l < k)%nat -> load1 h' l = load1 h l.
Proof. intros [_ H] Hl. unfold load1. rewrite (H l Hl). reflexivity. Qed.

Lemma load2_grown (k : nat) (h h' : heap) (l : nat) :
  grown k h h' -> (l < k)%nat -> load2 h' l = load2 h l.
Proof. intros [_ H] Hl. unfold load2. rewrite (H l Hl). reflexivity. Qed.

Lemma load2_modify2 (l : nat) (f : matrix -> matrix) (h : heap) :
  (l < length h)%nat -> load2 (modify2 l f h) l = f (load2 h l).
Proof.
  intro Hl. unfold modify2, store. unfold load2 at 1.
  rewrite nth_error_update_same by exact Hl. reflexivity.
Qed.

Lemma length_modify2 (l : nat) (f : matrix -> matrix) (h : heap) :
  length (modify2 l f h) = length h.
Proof. apply length_update. Qed.

Lemma load2_alloc (M : matrix) (h : heap) :
  load2 (snd (alloc (Arr2 M) h)) (length h) = M.
Proof.
  unfold load2. simpl. rewrite nth_error_app2 by apply Nat.le_refl.
  rewrite Nat.sub_diag. reflexivity.
Qed.

Lemma load_iterate_alloc (x : iterate) (h : heap) :
  load_iterate (snd (alloc (array_of x) h)) (length h) = x.
Proof.
  unfold load_iterate. simpl. rewrite nth_error_app2 by apply Nat.le_refl.
  rewrite Nat.sub_diag. destruct x; reflexivity.
Qed.

(** The store version builds, at a new reference, the tableau of the value
    version. *)
Lemma build_tableau_st_refines (C A b : nat) (h : heap) :
  (C < length h)%nat -> (A < length h)%nat -> (b < length h)%nat ->
  let (tableau, h') := build_tableau_st C A b h in
  tableau = length h
  /\ (tableau < length h')%nat
  /\ load2 h' tableau = build_tableau (load1 h C) (load2 h A) (load1 h b).
Proof.
  intros HC HA Hb. unfold build_tableau_st.
  set (n := length (load1 h C)). set (m := length (load1 h b)).
  set (k := length h).
  set (h0 := snd (alloc (Arr2 (zeros (S m) (S (n + m)))) h)).
  change (alloc (Arr2 (zeros (S m) (S (n + m)))) h) with (k, h0).
  assert (G0 : grown k h h0)
    by (apply (grown_alloc _ _ _ (Arr2 _)); apply grown_refl).
  assert (L0 : (k < length h0)%nat)
    by (unfold h0; simpl; rewrite length_app; simpl; unfold k; lia).
  set (h1 := modify2 k (fill_constraints (load2 h0 A)) h0).
  assert (G1 : grown k h h1) by (apply grown_modify2; [exact G0 | lia]).
  assert (L1 : (k < length h1)%nat)
    by (unfold h1; rewrite length_modify2; exact L0).
  set (h2 := modify2 k (fill_slack n m) h1).
  assert (G2 : grown k h h2) by (apply grown_modify2; [exact G1 | lia]).
  assert (L2 : (k < length h2)%nat)
    by (unfold h2; rewrite length_modify2; exact L1).
  set (h3 := modify2 k (fill_rhs n m (load1 h2 b)) h2).
  assert (G3 : grown k h h3) by (apply grown_modify2; [exact G2 | lia]).
  assert (L3 : (k < length h3)%nat)
    by (unfold h3; rewrite length_modify2; exact L2).
  assert (E0 : load2 h0 k = zeros (S m) (S (n + m)))
    by (apply load2_alloc).
  assert (E1 : load2 h1 k
               = fill_constraints (load2 h A) (zeros (S m) (S (n + m)))).
  { unfold h1. rewrite load2_modify2 by exact L0.
    rewrite E0, (load2_grown k h h0 A G0 HA). reflexivity. }
  assert (E2 : load2 h2 k = fill_slack n m (load2 h1 k))
    by (apply load2_modify2; exact L1).
  assert (E3 : load2 h3 k = fill_rhs n m (load1 h b) (load2 h2 k)).
  { unfold h3. rewrite load2_modify2 by exact L2.
    rewrite (load1_grown k h h2 b G2 Hb). reflexivity. }
  split; [reflexivity|]. split; [rewrite length_modify2; exact L3|].
  rewrite load2_modify2 by exact L3.
  change (fill_objective m (load1 h3 C) (load2 h3 k)
          = build_tableau (load1 h C) (load2 h A) (load1 h b)).
  rewrite (load1_grown k h h3 C G3 HC), E3, E2, E1. reflexivity.
Qed.

Lemma pivot_st_refines (m tableau r c : nat) (h : heap) :
  (tableau < length h)%nat ->
  (tableau < length (pivot_st m tableau r c h))%nat
  /\ load2 (pivot_st m tableau r c h) tableau
     = pivot m (load2 h tableau) r c.
Proof.
  intro Hl. unfold pivot_st, pivot.
  assert (H0 : (tableau < length (modify2 tableau (fun t => normalize_row t r c) h))%nat
               /\ load2 (modify2 tableau (fun t => normalize_row t r c) h) tableau
                  = normalize_row (load2 h tableau) r c).
  { split; [rewrite length_modify2; exact Hl | apply load2_modify2; exact Hl]. }
  revert H0.
  generalize (modify2 tableau (fun t => normalize_row t r c) h) as h0.
  generalize (normalize_row (load2 h tableau) r c) as t0.
  generalize (seq 0 (S m)) as l.
  induction l as [|i l IH]; intros t0 h0 [Hlen Hload]; simpl.
  - split; assumption.
  - apply IH. split.
    + rewrite length_modify2. exact Hlen.
    + rewrite load2_modify2 by exact Hlen. rewrite Hload. reflexivity.
Qed.

Lemma simplex_loop_st_refines (fuel m tableau : nat) :
  forall (h : heap) (done : nat),
    (tableau < length h)%nat ->
    match simplex_loop fuel m (load2 h tableau) done with
    | Some r =>
        exists h',
          simplex_loop_st fuel m tableau h done
          = (Some (ending r, pivots r), h')
          /\ (tableau < length h')%nat
          /\ load2 h' tableau = final_tableau r
    | None => fst (simplex_loop_st fuel m tableau h done) = None
    end.
Proof.
  induction fuel as [|fuel IH]; intros h done Hl; simpl; [reflexivity|].
  destruct (simplex_turn m (load2 h tableau)) as [| |r c|e].
  - exists h. repeat split. exact Hl.
  - exists h. repeat split. exact Hl.
  - destruct (pivot_st_refines m tableau r c h Hl) as [Hlen Hload].
    rewrite <- Hload. apply IH. exact Hlen.
  - exists h. repeat split. exact Hl.
Qed.

Lemma load_alloc_below (a : ndarray) (h : heap) (l : nat) :
  (l < length h)%nat ->
  nth_error (snd (alloc a h)) l = nth_error h l.
Proof. intro Hl. simpl. apply nth_error_app1. exact Hl. Qed.

Lemma load1_alloc (v : vec) (h : heap) :
  load1 (snd (alloc (Arr1 v) h)) (length h) = v.
Proof.
  unfold load1. simpl. rewrite nth_error_app2 by apply Nat.le_refl.
  rewrite Nat.sub_diag. reflexivity.
Qed.

(** On valid references the store version of [simplex_method_manual]
    reports what the value version reports on the arrays they refer to. *)
Lemma simplex_method_manual_st_refines (fuel C A b : nat) (h : heap) :
  (C < length h)%nat -> (A < length h)%nat -> (b < length h)%nat ->
  fst (simplex_method_manual_st fuel C A b h)
  = simplex_method_manual fuel (load1 h C) (load2 h A) (load1 h b).
Proof.
  intros HC HA Hb. unfold simplex_method_manual_st, simplex_method_manual,
    simplex_run.
  pose proof (build_tableau_st_refines C A b h HC HA Hb) as Hb0.
  destruct (build_tableau_st C A b h) as [tableau h1].
  destruct Hb0 as [Hloc [Hlen Hload]].
  pose proof (simplex_loop_st_refines fuel (length (load1 h b)) tableau h1 0
                Hlen) as Hloop.
  rewrite Hload in Hloop.
  destruct (simplex_loop fuel (length (load1 h b))
              (build_tableau (load1 h C) (load2 h A) (load1 h b)) 0)
    as [r|].
  - destruct Hloop as [h2 [E [Hlt Hfinal]]]. rewrite E in *.
    destruct r as [e t p]. simpl in *. unfold report. simpl.
    destruct e; simpl; try reflexivity.
    subst t.
    change (h2 ++ [Arr1 (extract_solution (length (load1 h C)) (load2 h2 tableau))])
      with (snd (alloc (Arr1 (extract_solution (length (load1 h C)) (load2 h2 tableau))) h2)).
    rewrite load1_alloc. unfold load2 at 2.
    rewrite load_alloc_below by exact Hlt. reflexivity.
  - destruct (simplex_loop_st fuel (length (load1 h b)) tableau h1 0)
      as [[[[| |e] done]|] h2]; simpl in *; try discriminate. reflexivity.
Qed.

Lemma method_loop_st_refines (alpha eps : Q) (C A : nat) (Cv : vec)
    (Av : matrix) (fuel : nat) :
  forall (x : nat) (h : heap),
    (C < length h)%nat -> (A < length h)%nat ->
    load1 h C = Cv -> load2 h A = Av ->
    fst (method_loop_st alpha eps C A fuel x h)
    = method_loop alpha eps Cv Av fuel (load_iterate h x).
Proof.
  induction fuel as [|fuel IH]; intros x h HC HA EC EA; simpl; [reflexivity|].
  assert (Hstep : forall a,
            (C < length (snd (alloc a h)))%nat
            /\ (A < length (snd (alloc a h)))%nat
            /\ load1 (snd (alloc a h)) C = Cv
            /\ load2 (snd (alloc a h)) A = Av).
  { intro a. simpl. rewrite length_app. repeat split; try lia.
    - unfold load1. rewrite nth_error_app1 by exact HC. exact EC.
    - unfold load2. rewrite nth_error_app1 by exact HA. exact EA. }
  destruct (load_iterate h x) as [xv|n].
  - rewrite EC, EA.
    destruct (method_step alpha eps Cv Av xv) as [o|x']; [reflexivity|].
    destruct (Hstep (array_of x')) as [H1 [H2 [H3 H4]]].
    change (alloc (array_of x') h) with (length h, snd (alloc (array_of x') h)).
    rewrite (IH _ _ H1 H2 H3 H4), load_iterate_alloc. reflexivity.
  - destruct (Hstep (ArrNaN n)) as [H1 [H2 [H3 H4]]].
    change (alloc (ArrNaN n) h) with (length h, snd (alloc (ArrNaN n) h)).
    rewrite (IH _ _ H1 H2 H3 H4).
    change (ArrNaN n) with (array_of (NaNs n)).
    rewrite load_iterate_alloc. reflexivity.
Qed.

(** On valid references the store version of [method] reports what the
    value version reports on the arrays they refer to. *)
Lemma method_st_refines (x0 : nat) (alpha eps : Q) (b C A fuel : nat)
    (h : heap) :
  (x0 < length h)%nat -> (b < length h)%nat ->
  (C < length h)%nat -> (A < length h)%nat ->
  fst (method_st x0 alpha eps b C A fuel h)
  = method alpha eps (load1 h b) (load1 h C) (load2 h A) fuel (load1 h x0).
Proof.
  intros Hx0 Hb HC HA. unfold method_st, method.
  destruct (negb (rows_sol (load2 h A))); [reflexivity|].
  set (a1 := Arr1 (matvec (load2 h A) (load1 h x0))).
  change (alloc a1 h) with (length h, snd (alloc a1 h)). cbv beta iota.
  assert (G1 : grown (length h) h (snd (alloc a1 h)))
    by (apply grown_alloc, grown_refl).
  rewrite (load2_grown _ _ _ A G1 HA), (load1_grown _ _ _ b G1 Hb),
    (load1_grown _ _ _ x0 G1 Hx0).
  unfold a1 at 1. rewrite load1_alloc.
  destruct (bound_exceeded _ _ _); [reflexivity|].
  set (h1 := snd (alloc a1 h)) in *.
  set (a2 := Arr1 (load1 h x0)).
  change (alloc a2 h1) with (length h1, snd (alloc a2 h1)). cbv beta iota.
  assert (G2 : grown (length h) h (snd (alloc a2 h1)))
    by (apply grown_alloc; exact G1).
  rewrite (method_loop_st_refines alpha eps C A (load1 h C) (load2 h A)).
  - unfold load_iterate, a2. simpl. rewrite nth_error_app2 by apply Nat.le_refl.
    rewrite Nat.sub_diag. reflexivity.
  - destruct G2. lia.
  - destruct G2. lia.
  - apply (load1_grown _ _ _ C G2 HC).
  - apply (load2_grown _ _ _ A G2 HA).
Qed.

(** C10. Neither function writes into an array that existed before
    the call: after [method] and after [simplex_method_manual], for any
    number of loop turns, the store holds at every reference it had before
    the call, among them those of [C], [A], [b] and [x0], the array it held
    there.  [method] iterates on arrays it allocates (the copy of [x0],
    then each [x_star]) and [simplex_method_manual] pivots in a tableau
    allocated at a new reference. *)
Theorem inputs_not_mutated (h : heap) :
  (forall x0 alpha eps b C A fuel,
      preserves h (snd (method_st x0 alpha eps b C A fuel h)))
  /\ (forall fuel C A b,
        preserves h (snd (simplex_method_manual_st fuel C A b h))
        /\ fst (build_tableau_st C A b h) = length h).
Proof.
  split.
  - intros. apply grown_preserves, grown_method_st.
  - intros. split.
    + apply grown_preserves, grown_simplex_method_manual_st.
    + apply grown_build_tableau_st.
Qed.

Lemma inputs_not_mutated_witness :
  let h := [Arr1 [3; 2]; Arr2 [[1; 0]; [0; 1]; [1; 1]]; Arr1 [4; 4; 5];
            Arr1 [1; 1]] in
  nth_error (snd (simplex_method_manual_st 5 0 1 2 h)) 1
  = Some (Arr2 [[1; 0]; [0; 1]; [1; 1]])
  /\ nth_error (snd (method_st 3 (1 # 2) (1 # 1000) 2 0 1 5 h)) 3
     = Some (Arr1 [1; 1]).
Proof.
  intro h. split.
  - apply (proj1 (proj2 (inputs_not_mutated h) 5%nat 0%nat 1%nat 2%nat)).
    simpl. lia.
  - apply (proj1 (inputs_not_mutated h) 3%nat (1 # 2) (1 # 1000)
                 2%nat 0%nat 1%nat 5%nat).
    simpl. lia.
Defined.

(** ** The instances of the specification *)

Example inv_2x2 :
  option_map (map (map Qred)) (inv [[2; 1]; [1; 1]])
  = Some [[1; -1]; [-1; 2]].
Proof. reflexivity. Qed.

Example build_tableau_ex :
  build_tableau [3; 2] [[1; 0]; [0; 1]; [1; 1]] [4; 4; 5]
  = [[1; 0; 1; 0; 0; 4];
     [0; 1; 0; 1; 0; 4];
     [1; 1; 0; 0; 1; 5];
     [-3; -2; 0; 0; 0; 0]].
Proof. reflexivity. Qed.

(** End-to-end instance: solution [4, 1] with objective 14, after two
    pivots. *)
Example simplex_end_to_end :
  exists r sol obj,
    simplex_run 5 [3; 2] [[1; 0]; [0; 1]; [1; 1]] [4; 4; 5] = Some r
    /\ pivots r = 2%nat
    /\ report 2 r = Optimal sol obj
    /\ Forall2 Qeq sol [4; 1]
    /\ obj == 14.
Proof.
  eexists. eexists. eexists.
  split; [vm_compute; reflexivity|].
  split; [reflexivity|].
  split; [vm_compute; reflexivity|].
  split; [repeat constructor; reflexivity | reflexivity].
Qed.

(** The store version agrees with the value version on that instance. *)
Example simplex_st_end_to_end :
  fst (simplex_method_manual_st 5 0 1 2
         [Arr1 [3; 2]; Arr2 [[1; 0]; [0; 1]; [1; 1]]; Arr1 [4; 4; 5]])
  = simplex_method_manual 5 [3; 2] [[1; 0]; [0; 1]; [1; 1]] [4; 4; 5].
Proof.
  apply (simplex_method_manual_st_refines 5 0 1 2); simpl; lia.
Qed.

(** * Further properties of the code *)

(** ** One pivot, row by row *)

Lemma nth_update {X : Type} (i j : nat) (x d : X) (l : list X) :
  nth i (update j x l) d
  = if Nat.eqb i j && Nat.ltb j (length l) then x else nth i l d.
Proof.
  revert i j. induction l as [|a l IH]; intros i j.
  - destruct j; simpl; rewrite andb_false_r; reflexivity.
  - destruct j as [|j], i as [|i]; simpl; try reflexivity.
    rewrite IH. reflexivity.
Qed.

Lemma nth_update_same {X : Type} (i : nat) (x d : X) (l : list X) :
  (i < length l)%nat -> nth i (update i x l) d = x.
Proof.
  intro H. rewrite nth_update, Nat.eqb_refl.
  replace (i <? length l)%nat with true by (symmetry; apply Nat.ltb_lt; exact H).
  reflexivity.
Qed.

Lemma nth_update_other {X : Type} (i j : nat) (x d : X) (l : list X) :
  i <> j -> nth i (update j x l) d = nth i l d.
Proof.
  intro H. rewrite nth_update.
  replace (Nat.eqb i j) with false by (symmetry; apply Nat.eqb_neq; exact H).
  reflexivity.
Qed.

Lemma eliminated_ext (r c : nat) (t t' : matrix) (i : nat) :
  nth i t' [] = nth i t [] -> nth r t' [] = nth r t [] ->
  eliminated r c t' i = eliminated r c t i.
Proof.
  intros Hi Hr. unfold eliminated, entry. rewrite Hi, Hr. reflexivity.
Qed.

Lemma length_eliminate_row (r c : nat) (t : matrix) (i : nat) :
  length (eliminate_row r c t i) = length t.
Proof.
  unfold eliminate_row. destruct (Nat.eqb i r); [reflexivity|].
  apply length_update.
Qed.

Lemma nth_eliminate_row (r c : nat) (t : matrix) (a i : nat) :
  (a < length t)%nat ->
  nth i (eliminate_row r c t a) []
  = if Nat.eqb i a && negb (Nat.eqb a r) then eliminated r c t a
    else nth i t [].
Proof.
  intro Ha. unfold eliminate_row.
  destruct (Nat.eqb a r) eqn:E; simpl.
  - rewrite andb_false_r. reflexivity.
  - rewrite andb_true_r, nth_update.
    replace (a <? length t)%nat with true by (symmetry; apply Nat.ltb_lt; exact Ha).
    rewrite andb_true_r. reflexivity.
Qed.

(** The sequential in-place loop of lines 104-106 changes each row of [l]
    other than the pivot row once, from the rows as line 102 left them. *)
Lemma fold_eliminate_rows (r c : nat) (l : list nat) :
  NoDup l ->
  forall (t : matrix) (i : nat),
    Forall (fun a => (a < length t)%nat) l ->
    nth i (fold_left (eliminate_row r c) l t) []
    = if existsb (Nat.eqb i) l && negb (Nat.eqb i r) then eliminated r c t i
      else nth i t [].
Proof.
  induction 1 as [|a l Hnotin Hnd IH]; intros t i Hall; simpl; [reflexivity|].
  inversion Hall as [|? ? Ha Hall']; subst.
  rewrite IH by (rewrite length_eliminate_row; exact Hall').
  assert (Hrow_r : nth r (eliminate_row r c t a) [] = nth r t []).
  { rewrite nth_eliminate_row by exact Ha.
    destruct (Nat.eqb_spec r a) as [->|Hne]; simpl.
    - rewrite Nat.eqb_refl. reflexivity.
    - reflexivity. }
  destruct (Nat.eqb_spec i a) as [->|Hne].
  - replace (existsb (Nat.eqb a) l) with false.
    2:{ symmetry. apply not_true_iff_false. intro Hex.
        apply existsb_exists in Hex. destruct Hex as [x [Hin Hx]].
        apply Nat.eqb_eq in Hx. subst x. contradiction. }
    simpl. rewrite nth_eliminate_row by exact Ha.
    rewrite Nat.eqb_refl. reflexivity.
  - simpl.
    assert (Hrow_i : nth i (eliminate_row r c t a) [] = nth i t []).
    { rewrite nth_eliminate_row by exact Ha.
      replace (Nat.eqb i a) with false by (symmetry; apply Nat.eqb_neq; exact Hne).
      reflexivity. }
    rewrite Hrow_i, (eliminated_ext r c t _ i Hrow_i Hrow_r). reflexivity.
Qed.

Lemma existsb_eqb_seq (i n : nat) :
  existsb (Nat.eqb i) (seq 0 n) = Nat.ltb i n.
Proof.
  destruct (i <? n)%nat eqn:E.
  - apply existsb_exists. exists i. apply Nat.ltb_lt in E. split.
    + apply in_seq. lia.
    + apply Nat.eqb_refl.
  - apply not_true_iff_false. intro H. apply existsb_exists in H.
    destruct H as [x [Hin Hx]]. apply Nat.eqb_eq in Hx. subst x.
    apply in_seq in Hin. apply Nat.ltb_ge in E. lia.
Qed.

(** One pivot, row by row: the pivot row is divided by the pivot element
    and every other row loses its multiple of the divided pivot row. *)
Lemma pivot_rows (m : nat) (t : matrix) (r c i : nat) :
  length t = S m -> (r <= m)%nat -> (i <= m)%nat ->
  nth i (pivot m t r c) []
  = if Nat.eqb i r then map (fun a => a / entry t r c) (nth r t [])
    else vsub (nth i t [])
              (map (Qmult (entry t i c))
                   (map (fun a => a / entry t r c) (nth r t []))).
Proof.
  intros Hlen Hr Hi. unfold pivot.
  rewrite fold_eliminate_rows.
  - rewrite existsb_eqb_seq.
    replace (i <? S m)%nat with true by (symmetry; apply Nat.ltb_lt; lia).
    simpl. unfold normalize_row.
    destruct (Nat.eqb_spec i r) as [->|Hne]; simpl.
    + apply nth_update_same. lia.
    + unfold eliminated, entry.
      rewrite (nth_update_other i r) by exact Hne.
      rewrite nth_update_same by lia. reflexivity.
  - apply seq_NoDup.
  - apply Forall_forall. intros a Ha. apply in_seq in Ha.
    unfold normalize_row. rewrite length_update. lia.
Qed.

Lemma nth_map_lt {X Y : Type} (f : X -> Y) (l : list X) (j : nat) (d : X) (d' : Y) :
  (j < length l)%nat -> nth j (map f l) d' = f (nth j l d).
Proof.
  intro H. rewrite (nth_indep _ d' (f d)) by (rewrite length_map; exact H).
  apply map_nth.
Qed.

Lemma nth_vsub (u v : vec) (j : nat) :
  length u = length v -> (j < length u)%nat ->
  nth j (vsub u v) 0 = nth j u 0 - nth j v 0.
Proof.
  intros Hlen Hj. unfold vsub.
  rewrite (nth_map_lt _ _ j (0, 0))
    by (rewrite length_combine, <- Hlen, Nat.min_id; exact Hj).
  rewrite combine_nth by exact Hlen. reflexivity.
Qed.

Lemma last_as_nth {X : Type} (l : list X) (d : X) :
  last l d = nth (length l - 1) l d.
Proof.
  induction l as [|a l IH]; [reflexivity|].
  destruct l as [|a' l]; [reflexivity|].
  change (last (a :: a' :: l) d) with (last (a' :: l) d). rewrite IH.
  simpl. rewrite Nat.sub_0_r. reflexivity.
Qed.

Lemma rectangular_row (w : nat) (t : matrix) (i : nat) :
  rectangular w t -> (i < length t)%nat -> length (nth i t []) = w.
Proof.
  intros H Hi. unfold rectangular in H. rewrite Forall_forall in H.
  apply H. apply nth_In. exact Hi.
Qed.

(** The entries of the tableau after one pivot. *)
Lemma entry_pivot (m w : nat) (t : matrix) (r c i j : nat) :
  length t = S m -> rectangular w t ->
  (r <= m)%nat -> (i <= m)%nat -> (j < w)%nat ->
  entry (pivot m t r c) i j
  = if Nat.eqb i r then entry t r j / entry t r c
    else entry t i j - entry t i c * (entry t r j / entry t r c).
Proof.
  intros Hlen Hrect Hr Hi Hj.
  assert (Hwr : length (nth r t []) = w)
    by (apply rectangular_row; [exact Hrect | lia]).
  assert (Hwi : length (nth i t []) = w)
    by (apply rectangular_row; [exact Hrect | lia]).
  unfold entry at 1. rewrite (pivot_rows m t r c i Hlen Hr Hi).
  destruct (Nat.eqb i r).
  - rewrite (nth_map_lt _ _ j 0) by lia. reflexivity.
  - rewrite nth_vsub by (rewrite ?length_map; lia).
    rewrite (nth_map_lt _ _ j 0) by (rewrite length_map; lia).
    rewrite (nth_map_lt _ _ j 0) by lia. reflexivity.
Qed.

(** X1. After a pivot on a non-zero element the pivot column is a unit vector:
    1 in the pivot row, 0 in every other row, the objective row included. *)
Theorem pivot_column_unit (m w : nat) (t : matrix) (r c i : nat) :
  length t = S m -> rectangular w t ->
  (r <= m)%nat -> (c < w)%nat -> ~ entry t r c == 0 -> (i <= m)%nat ->
  entry (pivot m t r c) i c == if Nat.eqb i r then 1 else 0.
Proof.
  intros Hlen Hrect Hr Hc Hpv Hi.
  rewrite (entry_pivot m w t r c i c Hlen Hrect Hr Hi Hc).
  destruct (Nat.eqb i r); field; exact Hpv.
Qed.

Lemma pivot_column_unit_witness :
  entry (pivot 1 [[2; 1; 4]; [-3; 0; 0]] 0 0) 1 0 == 0.
Proof.
  apply (pivot_column_unit 1 3 [[2; 1; 4]; [-3; 0; 0]] 0 0 1 eq_refl).
  - repeat constructor.
  - lia.
  - lia.
  - discriminate.
  - lia.
Defined.

(** X2. A pivot leaves a column alone whose entry in the pivot row is 0; so the
    unit columns of the rows that are not the pivot row stay unit columns. *)
Theorem pivot_keeps_column (m w : nat) (t : matrix) (r c i j : nat) :
  length t = S m -> rectangular w t ->
  (r <= m)%nat -> (j < w)%nat -> entry t r j == 0 -> (i <= m)%nat ->
  entry (pivot m t r c) i j == entry t i j.
Proof.
  intros Hlen Hrect Hr Hj Hz Hi.
  rewrite (entry_pivot m w t r c i j Hlen Hrect Hr Hi Hj).
  destruct (Nat.eqb_spec i r) as [->|Hne].
  - rewrite Hz. unfold Qdiv. ring.
  - rewrite Hz. unfold Qdiv. ring.
Qed.

Lemma pivot_keeps_column_witness :
  entry (pivot 1 [[2; 0; 4]; [-3; 1; 0]] 0 0) 1 1 == 1.
Proof.
  apply (pivot_keeps_column 1 3 [[2; 0; 4]; [-3; 1; 0]] 0 0 1 1 eq_refl).
  - repeat constructor.
  - lia.
  - lia.
  - reflexivity.
  - lia.
Defined.

(** ** What a turn that pivots has found *)

Lemma last_row (m : nat) (t : matrix) :
  length t = S m -> last t [] = nth m t [].
Proof.
  intro H. rewrite last_as_nth, H. simpl. rewrite Nat.sub_0_r. reflexivity.
Qed.

(** What a turn that pivots has found (lines 83-98). *)
Lemma turn_pivot_inv (m : nat) (t : matrix) (r c : nat) :
  simplex_turn m t = TurnPivot r c ->
  argmin_by Qltb (objective_row t) = Some c
  /\ nth c (last t []) 0 < 0
  /\ (r < m)%nat
  /\ 0 < entry t r c
  /\ forall i, (i < m)%nat -> 0 < entry t i c ->
       rhs t r / entry t r c <= rhs t i / entry t i c.
Proof.
  unfold simplex_turn.
  destruct (argmin_by Qltb (objective_row t)) as [c0|] eqn:Hc; [|discriminate].
  destruct (geb (nth c0 (last t []) 0) 0) eqn:Hg; [discriminate|].
  apply geb_false in Hg.
  destruct (argmin_by ratio_ltb (ratios_of m t c0)) as [r0|] eqn:Hr;
    [|discriminate].
  destruct (nth r0 (ratios_of m t c0) None) as [q|] eqn:Hq; [|discriminate].
  intro H. injection H as <- <-.
  assert (Hm : (0 < m)%nat).
  { destruct m; [|lia]. simpl in Hr. discriminate. }
  destruct (ratio_argmin m t c0 Hm) as [r1 [Hr1 [Hlt [Hmin _]]]].
  rewrite Hr in Hr1. injection Hr1 as <-.
  assert (Hpos : 0 < entry t r0 c0).
  { rewrite (nth_ratios_of m t c0 r0 Hlt) in Hq.
    destruct (gtb (entry t r0 c0) 0) eqn:E; [|discriminate].
    apply gtb_true. exact E. }
  split; [reflexivity|]. split; [exact Hg|]. split; [exact Hlt|].
  split; [exact Hpos|].
  intros i Hi Hipos. pose proof (Hmin i Hi) as Hle.
  rewrite !nth_ratios_of in Hle by assumption.
  replace (gtb (entry t i c0) 0) with true in Hle
    by (symmetry; apply gtb_true; exact Hipos).
  replace (gtb (entry t r0 c0) 0) with true in Hle
    by (symmetry; apply gtb_true; exact Hpos).
  simpl in Hle. apply Qltb_false in Hle. exact Hle.
Qed.

(** X3. Dantzig's rule as the code has it (lines 83-85): a turn that goes on to
    the ratio test has chosen the first position of the least entry of the
    objective row, and that entry is negative. *)
Theorem entering_variable (m : nat) (t : matrix) (r c : nat) :
  simplex_turn m t = TurnPivot r c ->
  (c < length (objective_row t))%nat
  /\ nth c (objective_row t) 0 < 0
  /\ (forall j, (j < length (objective_row t))%nat ->
        nth c (objective_row t) 0 <= nth j (objective_row t) 0)
  /\ (forall j, (j < c)%nat ->
        nth c (objective_row t) 0 < nth j (objective_row t) 0).
Proof.
  intro H. destruct (turn_pivot_inv m t r c H) as [Hc [Hneg _]].
  assert (Hne : objective_row t <> []).
  { intro E. rewrite E in Hc. discriminate. }
  destruct (argmin_by_spec Q Qltb 0 Qltb_irrefl Qltb_trans Qltb_le_trans
              (objective_row t) Hne) as [c' [Hc' [Hlt [Hmin Hfirst]]]].
  rewrite Hc in Hc'. injection Hc' as <-.
  split; [exact Hlt|]. split.
  - unfold objective_row. rewrite nth_removelast by exact Hlt. exact Hneg.
  - split.
    + intros j Hj. apply Qltb_false. apply Hmin. exact Hj.
    + intros j Hj. apply Qltb_true. apply Hfirst. exact Hj.
Qed.

Lemma entering_variable_witness :
  nth 0 (objective_row
           (build_tableau [3; 2] [[1; 0]; [0; 1]; [1; 1]] [4; 4; 5])) 0 < 0.
Proof.
  apply (proj1 (proj2 (entering_variable 3
                  (build_tableau [3; 2] [[1; 0]; [0; 1]; [1; 1]] [4; 4; 5])
                  0 0 eq_refl))).
Defined.

(** ** From the problem data to the report *)

Lemma length_build_tableau C A b :
  well_shaped C A b -> length (build_tableau C A b) = S (length b).
Proof.
  intro H. rewrite (build_tableau_rows C A b H).
  rewrite length_app, length_map, length_seq. simpl. lia.
Qed.

Lemma nth_build_tableau C A b i :
  well_shaped C A b -> (i < length b)%nat ->
  nth i (build_tableau C A b) []
  = nth i A [] ++ unit_row (length b) i ++ [nth i b 0].
Proof.
  intros H Hi. rewrite (build_tableau_rows C A b H).
  rewrite app_nth1 by (rewrite length_map, length_seq; exact Hi).
  apply (nth_map_seq (fun i0 => nth i0 A [] ++ unit_row (length b) i0 ++ [nth i0 b 0])).
  exact Hi.
Qed.

Lemma rectangular_build_tableau C A b :
  well_shaped C A b ->
  rectangular (S (length C + length b)) (build_tableau C A b).
Proof.
  intro H. pose proof H as [HA Hrows].
  unfold rectangular. rewrite (build_tableau_rows C A b H).
  apply Forall_app. split.
  - apply Forall_forall. intros row Hin. apply in_map_iff in Hin.
    destruct Hin as [i [<- Hi]]. apply in_seq in Hi.
    rewrite !length_app, length_unit_row. simpl.
    rewrite Forall_forall in Hrows.
    rewrite (Hrows (nth i A [])) by (apply nth_In; lia). lia.
  - constructor; [|constructor].
    rewrite !length_app, length_map, repeat_length. simpl. lia.
Qed.

Lemma rhs_build_tableau C A b i :
  well_shaped C A b -> (i < length b)%nat ->
  rhs (build_tableau C A b) i = nth i b 0.
Proof.
  intros H Hi. unfold rhs. rewrite (nth_build_tableau C A b i H Hi).
  rewrite app_assoc. apply last_last.
Qed.

Lemma objective_value_build_tableau C A b :
  well_shaped C A b -> rhs (build_tableau C A b) (length b) = 0.
Proof.
  intro H. unfold rhs.
  rewrite <- (last_row (length b)) by (apply length_build_tableau; exact H).
  rewrite (last_build_tableau C A b H). apply last_last.
Qed.

(** X5. The tableau of lines 74-78, entry by entry: the constraint block is
    [A], the slack block is the identity, the last column is [b]; the
    objective row holds the negated coefficients and zeros. *)
Theorem initial_tableau C A b :
  well_shaped C A b ->
  let T := build_tableau C A b in
  let n := length C in
  let m := length b in
  length T = S m
  /\ rectangular (S (n + m)) T
  /\ (forall i j, (i < m)%nat -> (j < n)%nat -> entry T i j = entry A i j)
  /\ (forall i k, (i < m)%nat -> (k < m)%nat ->
        entry T i (n + k) = if Nat.eqb i k then 1 else 0)
  /\ (forall i, (i < m)%nat -> rhs T i = nth i b 0)
  /\ objective_row T = map Qopp C ++ repeat 0 m
  /\ rhs T m = 0.
Proof.
  intros H T n m. pose proof H as [HA Hrows].
  split; [apply length_build_tableau; exact H|].
  split; [apply rectangular_build_tableau; exact H|].
  split; [intros i j Hi Hj; apply entry_build_tableau; assumption|].
  split.
  - intros i k Hi Hk. unfold entry, T.
    rewrite (nth_build_tableau C A b i H Hi).
    assert (Hlen : length (nth i A []) = n).
    { rewrite Forall_forall in Hrows. apply Hrows. apply nth_In. lia. }
    rewrite app_nth2 by lia.
    replace (n + k - length (nth i A []))%nat with k by lia.
    rewrite app_nth1 by (rewrite length_unit_row; exact Hk).
    unfold unit_row. apply (nth_map_seq (fun j => if Nat.eqb i j then 1 else 0)).
    exact Hk.
  - split; [intros i Hi; apply rhs_build_tableau; assumption|].
    split; [apply objective_row_build_tableau; exact H|].
    apply objective_value_build_tableau; exact H.
Qed.

Lemma initial_tableau_witness :
  objective_row (build_tableau [3; 2] [[1; 0]; [0; 1]; [1; 1]] [4; 4; 5])
  = [-3; -2; 0; 0; 0].
Proof.
  refine (proj1 (proj2 (proj2 (proj2 (proj2 (proj2
            (initial_tableau [3; 2] [[1; 0]; [0; 1]; [1; 1]] [4; 4; 5] _))))))).
  split; [reflexivity | repeat constructor].
Defined.

Lemma first_index_lt (f : Q -> bool) (v : vec) :
  (0 < count f v)%nat -> (first_index f v < length v)%nat.
Proof.
  unfold count. induction v as [|a v IH]; simpl; [lia|].
  destruct (f a); simpl; [lia|]. intro H. apply IH in H. lia.
Qed.

(** X7. When no objective coefficient is positive the first entering-variable
    test already ends the loop: no pivot, objective value 0, the solution
    read off the initial tableau. *)
Theorem no_improving_column fuel C A b :
  well_shaped C A b ->
  (0 < length C + length b)%nat ->
  Forall (fun c => c <= 0) C ->
  simplex_run (S fuel) C A b
  = Some {| ending := EndOptimal; final_tableau := build_tableau C A b;
            pivots := 0 |}
  /\ simplex_method_manual (S fuel) C A b
     = Some (Optimal (extract_solution (length C) (build_tableau C A b)) 0).
Proof.
  intros Hws Hne Hc.
  assert (Hturn : simplex_turn (length b) (build_tableau C A b) = TurnBreak).
  { apply nonneg_turn.
    - rewrite (objective_row_build_tableau C A b Hws). intro E.
      apply (f_equal (@length Q)) in E.
      rewrite length_app, length_map, repeat_length in E. simpl in E. lia.
    - rewrite (objective_row_build_tableau C A b Hws). apply Forall_app. split.
      + apply Forall_map. eapply Forall_impl; [|exact Hc].
        intros a Ha. cbv beta in *. lra.
      + apply Forall_forall. intros a Ha. apply repeat_spec in Ha. subst a.
        apply Qle_refl. }
  assert (Hrun : simplex_run (S fuel) C A b
                 = Some {| ending := EndOptimal;
                           final_tableau := build_tableau C A b;
                           pivots := 0 |})
    by (unfold simplex_run; apply break_loop; exact Hturn).
  split; [exact Hrun|].
  unfold simplex_method_manual. rewrite Hrun. simpl. unfold report. simpl.
  rewrite (last_build_tableau C A b Hws), last_last. reflexivity.
Qed.

Lemma no_improving_column_witness :
  simplex_method_manual 1 [-1; 0] [[1; 2]] [3]
  = Some (Optimal (extract_solution 2 (build_tableau [-1; 0] [[1; 2]] [3])) 0).
Proof.
  apply (proj2 (no_improving_column 0 [-1; 0] [[1; 2]] [3]
                  ltac:(split; [reflexivity | repeat constructor])
                  (Nat.lt_0_succ 2)
                  ltac:(repeat constructor; discriminate))).
Defined.

(** The entering column of the initial tableau, when some objective
    coefficient is positive. *)
Lemma entering_initial C A b :
  well_shaped C A b ->
  (exists j, (j < length C)%nat /\ 0 < nth j C 0) ->
  exists c,
    argmin_by Qltb (objective_row (build_tableau C A b)) = Some c
    /\ nth c (last (build_tableau C A b) []) 0 < 0
    /\ (c < length C)%nat
    /\ 0 < nth c C 0.
Proof.
  intros Hws [j [Hj Hcj]].
  set (t := build_tableau C A b).
  assert (Hobj : objective_row t = map Qopp C ++ repeat 0 (length b))
    by (apply objective_row_build_tableau; exact Hws).
  assert (Hne : objective_row t <> []).
  { rewrite Hobj. destruct C; [simpl in Hj; lia | discriminate]. }
  destruct (argmin_objective t Hne) as [c [Hc [Hlt [Hlast Hmin]]]].
  assert (Hneg : nth c (objective_row t) 0 < 0).
  { eapply Qle_lt_trans.
    - apply (Hmin j). rewrite Hobj, length_app, length_map. lia.
    - rewrite Hobj, nth_objective_row.
      replace (j <? length C)%nat with true
        by (symmetry; apply Nat.ltb_lt; exact Hj).
      lra. }
  exists c. split; [exact Hc|]. split; [rewrite Hlast; exact Hneg|].
  rewrite Hobj, nth_objective_row in Hneg.
  destruct (c <? length C)%nat eqn:E.
  - apply Nat.ltb_lt in E. split; [exact E | lra].
  - exfalso. revert Hneg. apply Qlt_irrefl.
Qed.

Lemma no_positive_entry_unbounded m t c :
  (0 < m)%nat ->
  argmin_by Qltb (objective_row t) = Some c ->
  nth c (last t []) 0 < 0 ->
  (forall i, (i < m)%nat -> entry t i c <= 0) ->
  simplex_turn m t = TurnUnbounded.
Proof.
  intros Hm Hc Hneg Hall.
  rewrite (entering_turn m t c Hc Hneg).
  destruct (ratio_argmin m t c Hm) as [r [Hr [Hlt _]]].
  rewrite Hr, (nth_ratios_of m t c r Hlt).
  replace (gtb (entry t r c) 0) with false; [reflexivity|].
  symmetry. apply gtb_false. apply Hall. exact Hlt.
Qed.

(** X8. When some objective coefficient is positive and no column with a
    positive coefficient has a positive entry, the first ratio test finds
    no candidate and the call reports Unbounded without a pivot. *)
Theorem unbounded_at_first_turn fuel C A b :
  well_shaped C A b ->
  (0 < length b)%nat ->
  (exists j, (j < length C)%nat /\ 0 < nth j C 0) ->
  (forall i j, (i < length b)%nat -> (j < length C)%nat ->
     0 < nth j C 0 -> entry A i j <= 0) ->
  simplex_run (S fuel) C A b
  = Some {| ending := EndUnbounded; final_tableau := build_tableau C A b;
            pivots := 0 |}
  /\ simplex_method_manual (S fuel) C A b = Some Unbounded.
Proof.
  intros Hws Hm Hex Hcols.
  destruct (entering_initial C A b Hws Hex) as [c [Hc [Hneg [Hcn Hcpos]]]].
  assert (Hturn : simplex_turn (length b) (build_tableau C A b)
                  = TurnUnbounded).
  { apply (no_positive_entry_unbounded _ _ c); try assumption.
    intros i Hi. rewrite entry_build_tableau by assumption.
    apply Hcols; assumption. }
  assert (Hrun : simplex_run (S fuel) C A b
                 = Some {| ending := EndUnbounded;
                           final_tableau := build_tableau C A b;
                           pivots := 0 |})
    by (unfold simplex_run; simpl; rewrite Hturn; reflexivity).
  split; [exact Hrun|].
  unfold simplex_method_manual. rewrite Hrun. reflexivity.
Qed.

Lemma unbounded_at_first_turn_witness :
  simplex_method_manual 1 [1] [[-1]] [1] = Some Unbounded.
Proof.
  refine (proj2 (unbounded_at_first_turn 0 [1] [[-1]] [1]
                   ltac:(split; [reflexivity | repeat constructor])
                   (Nat.lt_0_succ 0)
                   (ex_intro _ 0%nat (conj (Nat.lt_0_succ 0) eq_refl))
                   _)).
  intros i j Hi Hj _. simpl in Hi, Hj.
  destruct i as [|i]; [|lia]. destruct j as [|j]; [|lia]. discriminate.
Defined.

(** ** Unit columns, and the main block *)

Lemma first_index_true (f : Q -> bool) (v : vec) :
  (0 < count f v)%nat -> f (nth (first_index f v) v 0) = true.
Proof.
  unfold count. induction v as [|a v IH]; simpl; [lia|].
  destruct (f a) eqn:E; simpl; [intros _; exact E | exact IH].
Qed.

Lemma count_one_others (f : Q -> bool) (v : vec) (i : nat) :
  count f v = 1%nat -> (i < length v)%nat -> i <> first_index f v ->
  f (nth i v 0) = false.
Proof.
  unfold count. revert i. induction v as [|a v IH]; intros i; simpl; [lia|].
  destruct (f a) eqn:E; simpl.
  - intros H Hi Hne. destruct i as [|i]; [congruence|].
    injection H as H. fold (count f v) in H. apply count_zero in H.
    rewrite Forall_forall in H. apply H. apply nth_In. lia.
  - intros H Hi Hne. destruct i as [|i]; [exact E|].
    apply IH; [exact H | lia | congruence].
Qed.

Lemma nth_column (t : matrix) (j i : nat) :
  nth i (column t j) 0 = entry t i j.
Proof.
  unfold column, entry.
  destruct (Nat.lt_ge_cases i (length t)) as [Hi|Hi].
  - apply (nth_map_lt (fun row => nth j row 0) t i []). exact Hi.
  - rewrite (nth_overflow (map _ t)) by (rewrite length_map; exact Hi).
    rewrite (nth_overflow t) by exact Hi.
    destruct j; reflexivity.
Qed.

(** X12. A unit column of the final tableau is read as basic: the variable gets
    the right-hand side of the one row that holds the 1, and every other
    row holds 0 in that column. *)
Theorem unit_column_value (t : matrix) (j : nat) :
  unit_column (column t j) = true ->
  let k := first_index is_one (column t j) in
  (k < length t)%nat
  /\ entry t k j == 1
  /\ (forall i, (i < length t)%nat -> i <> k -> entry t i j == 0)
  /\ solution_at t j = rhs t k.
Proof.
  intros H k. pose proof (unit_column_treated_basic t j H) as Hb.
  unfold unit_column in H. apply andb_true_iff in H. destruct H as [H1 H0].
  apply Nat.eqb_eq in H1. apply Nat.eqb_eq in H0.
  assert (Hlen : length (column t j) = length t)
    by (unfold column; apply length_map).
  split; [rewrite <- Hlen; apply first_index_lt; lia|].
  split.
  - rewrite <- nth_column. apply Qeq_bool_iff.
    apply (first_index_true is_one). lia.
  - split.
    + intros i Hi Hne. rewrite <- nth_column.
      pose proof (count_one_others is_one (column t j) i H1
                    ltac:(rewrite Hlen; exact Hi) Hne) as Hnot.
      apply count_zero in H0. rewrite Forall_forall in H0.
      specialize (H0 (nth i (column t j) 0)
                     ltac:(apply nth_In; rewrite Hlen; exact Hi)).
      cbv beta in H0. rewrite Hnot in H0. simpl in H0.
      apply negb_false_iff in H0. apply Qeq_bool_iff. exact H0.
    + unfold solution_at. rewrite Hb. reflexivity.
Qed.

Lemma unit_column_value_witness :
  solution_at [[0; 1; 5]; [1; 0; 7]; [0; 0; 9]] 0 = 7.
Proof.
  apply (proj2 (proj2 (proj2
           (unit_column_value [[0; 1; 5]; [1; 0; 7]; [0; 0; 9]] 0 eq_refl)))).
Defined.

Lemma method_NoSolution_iff alpha eps b C A fuel x0 :
  method alpha eps b C A fuel x0 = Some NoSolution <-> rows_sol A = false.
Proof.
  unfold method. destruct (rows_sol A); simpl.
  - split; [|discriminate]. intro H.
    destruct (bound_exceeded _ _ _); [discriminate|].
    exfalso. exact (method_loop_not_NoSolution _ _ _ _ _ _ H).
  - split; reflexivity.
Qed.

Lemma method_NotApplicableInit_iff alpha eps b C A fuel x0 :
  method alpha eps b C A fuel x0 = Some NotApplicableInit
  <-> rows_sol A = true
      /\ bound_exceeded (length A) (matvec A x0) b = true.
Proof.
  unfold method. destruct (rows_sol A); simpl.
  - destruct (bound_exceeded _ _ _).
    + split; [intros _; split; reflexivity | reflexivity].
    + split; [|intros [_ H]; discriminate]. intro H.
      exfalso. exact (method_loop_not_NotApplicableInit _ _ _ _ _ _ H).
  - split; [discriminate | intros [H _]; discriminate].
Qed.

(** X13. The two applicability checks do not look at alpha: when the first
    interior-point run ends in one of them the second run ends in the same
    one, and the program still goes on to the simplex call. *)
Theorem main_after_failed_check fuel C A x0 b eps run1 :
  method (1 # 2) eps b C A fuel x0 = Some run1 ->
  run1 = NoSolution \/ run1 = NotApplicableInit ->
  method (9 # 10) eps b C A fuel x0 = Some run1
  /\ main fuel C A x0 b eps
     = match simplex_method_manual fuel C A b with
       | None => None
       | Some (SimplexRaised e) => Some (Aborted [run1; run1] e)
       | Some run3 => Some (Finished run1 run1 run3)
       end.
Proof.
  intros H1 Hkind.
  assert (H2 : method (9 # 10) eps b C A fuel x0 = Some run1).
  { destruct Hkind as [-> | ->].
    - apply method_NoSolution_iff. apply method_NoSolution_iff in H1. exact H1.
    - apply method_NotApplicableInit_iff.
      apply method_NotApplicableInit_iff in H1. exact H1. }
  split; [exact H2|].
  unfold main. rewrite H1, H2. destruct Hkind as [-> | ->]; reflexivity.
Qed.

Lemma main_after_failed_check_witness :
  main 5 [3; 2] [[1; 0]; [0; 1]] [10; 10] [4; 4] (1 # 1000)
  = match simplex_method_manual 5 [3; 2] [[1; 0]; [0; 1]] [4; 4] with
    | None => None
    | Some (SimplexRaised e) =>
        Some (Aborted [NotApplicableInit; NotApplicableInit] e)
    | Some run3 => Some (Finished NotApplicableInit NotApplicableInit run3)
    end.
Proof.
  apply (proj2 (main_after_failed_check 5 [3; 2] [[1; 0]; [0; 1]] [10; 10]
                  [4; 4] (1 # 1000) NotApplicableInit eq_refl
                  (or_intror eq_refl))).
Defined.

(** * Properties that do not depend on the float arithmetic *)

(** ** The loop of [method] *)

Section MethodFacts.

Variable N : numpy.
Variables (alpha eps : num N) (C : list (num N)) (A : list (list (num N))).

Let turn := Np.method_turn N alpha eps C A.
Let loop := Np.method_loop N alpha eps C A.
Let iter := Np.iterate N alpha eps C A.

(** A turn stops the loop in one of two ways only: at the gate of line 49
    or at the convergence test of line 59. *)
Lemma method_turn_stops (x : list (num N)) (o : Np.outcome N) :
  turn x = Ok (Np.Stop o) ->
  exists c_p minimum,
    Np.reduced_cost N C A x = Ok c_p
    /\ np_min N c_p = Ok minimum
    /\ ((np_ge N minimum (np_tenth N) = true /\ o = Np.NotApplicableStop)
        \/ (np_ge N minimum (np_tenth N) = false
            /\ exists x_star d objective_value,
                 Np.candidate N alpha x c_p minimum = Ok x_star
                 /\ np_subtract N x_star x = Ok d
                 /\ np_norm_le N d eps = true
                 /\ np_dot N C x_star = Ok objective_value
                 /\ o = Np.Converged x_star objective_value)).
Proof.
  unfold turn, Np.method_turn.
  destruct (Np.reduced_cost N C A x) as [c_p|] eqn:E1;
    simpl bind; [|discriminate].
  destruct (np_min N c_p) as [minimum|] eqn:E2; simpl bind; [|discriminate].
  destruct (np_ge N minimum (np_tenth N)) eqn:Eg.
  - intro H. exists c_p, minimum. split; [reflexivity|].
    split; [exact E2|]. left. split; [exact Eg | congruence].
  - destruct (Np.candidate N alpha x c_p minimum) as [x_star|] eqn:E3;
      simpl bind; [|discriminate].
    destruct (np_subtract N x_star x) as [d|] eqn:E4;
      simpl bind; [|discriminate].
    destruct (np_norm_le N d eps) eqn:En; [|discriminate].
    destruct (np_dot N C x_star) as [obj|] eqn:E5;
      simpl bind; [|discriminate].
    intro H. exists c_p, minimum. split; [reflexivity|].
    split; [exact E2|]. right. split; [exact Eg|].
    exists x_star, d, obj. repeat split; try assumption. congruence.
Qed.

(** A turn goes on to the next with its candidate, which has passed
    neither test. *)
Lemma method_turn_next (x x' : list (num N)) :
  turn x = Ok (Np.Next x') ->
  exists c_p minimum d,
    Np.reduced_cost N C A x = Ok c_p
    /\ np_min N c_p = Ok minimum
    /\ np_ge N minimum (np_tenth N) = false
    /\ Np.candidate N alpha x c_p minimum = Ok x'
    /\ np_subtract N x' x = Ok d
    /\ np_norm_le N d eps = false.
Proof.
  unfold turn, Np.method_turn.
  destruct (Np.reduced_cost N C A x) as [c_p|] eqn:E1;
    simpl bind; [|discriminate].
  destruct (np_min N c_p) as [minimum|] eqn:E2; simpl bind; [|discriminate].
  destruct (np_ge N minimum (np_tenth N)) eqn:Eg; [discriminate|].
  destruct (Np.candidate N alpha x c_p minimum) as [x_star|] eqn:E3;
    simpl bind; [|discriminate].
  destruct (np_subtract N x_star x) as [d|] eqn:E4;
    simpl bind; [|discriminate].
  destruct (np_norm_le N d eps) eqn:En.
  - destruct (np_dot N C x_star); discriminate.
  - intro H. injection H as <-.
    exists c_p, minimum, d. split; [reflexivity|]. repeat split; assumption.
Qed.

Lemma loop_after_iterate (k fuel : nat) :
  forall x0 x, iter k x0 = Some x -> loop (k + fuel)%nat x0 = loop fuel x.
Proof.
  induction k as [|k IH]; intros x0 x; simpl.
  - intro H. injection H as <-. reflexivity.
  - unfold iter, loop. simpl. fold turn.
    destruct (turn x0) as [[o|x']|e]; try discriminate.
    apply IH.
Qed.

Lemma loop_running (fuel : nat) :
  forall x0, loop fuel x0 = None <-> exists x, iter fuel x0 = Some x.
Proof.
  induction fuel as [|fuel IH]; intro x0.
  - split; [intros _; exists x0; reflexivity | reflexivity].
  - unfold iter, loop. simpl. fold turn.
    destruct (turn x0) as [[o|x']|e].
    + split; [discriminate | intros [x H]; discriminate].
    + apply IH.
    + split; [discriminate | intros [x H]; discriminate].
Qed.

Lemma loop_left (fuel : nat) :
  forall x0 o,
    loop fuel x0 = Some o ->
    exists k x,
      (k < fuel)%nat /\ iter k x0 = Some x
      /\ (turn x = Ok (Np.Stop o)
          \/ exists e, turn x = Raise e /\ o = Np.Raised e).
Proof.
  induction fuel as [|fuel IH]; intros x0 o; [discriminate|].
  unfold loop. simpl. fold turn.
  destruct (turn x0) as [[o'|x']|e] eqn:E.
  - intro H. injection H as ->. exists 0%nat, x0.
    split; [lia|]. split; [reflexivity|]. left. exact E.
  - intro H. destruct (IH x' o H) as [k [x [Hk [Hit Hx]]]].
    exists (S k), x. split; [lia|]. split; [|exact Hx].
    unfold iter. simpl. fold turn. rewrite E. exact Hit.
  - intro H. injection H as <-. exists 0%nat, x0.
    split; [lia|]. split; [reflexivity|]. right. exists e. split; [exact E|reflexivity].
Qed.

End MethodFacts.

(** C2 (as the code has it). In every turn of the loop, when the call of
    [np.linalg.inv] on the computed [A_tilda @ A_tilda.T] raises, that
    exception leaves [method] in the same turn: nothing catches it, the
    inversion is not tried again and no status is returned.  This holds
    for the turn from any iterate [x], reached from [x0] after any number
    [k] of turns. *)
Theorem inversion_error_propagates (N : numpy) alpha eps b C A
    (x : list (num N)) A_tilda c_tilda A_rev e :
  np_matmul N A (np_diag N x) = Ok A_tilda ->
  np_matvec N (np_diag N x) C = Ok c_tilda ->
  np_matmul N A_tilda (np_transpose N A_tilda) = Ok A_rev ->
  np_inv N A_rev = Raise e ->
  Np.method_turn N alpha eps C A x = Raise e
  /\ (forall fuel k x0,
        Np.iterate N alpha eps C A k x0 = Some x ->
        Np.method_loop N alpha eps C A (k + S fuel) x0 = Some (Np.Raised e))
  /\ (forall fuel bound,
        Np.rows_sol N A = true ->
        np_matvec N A x = Ok bound ->
        Np.bound_check N b (seq 0 (length A)) bound = Ok false ->
        Np.method N alpha eps b C A (S fuel) x = Some (Np.Raised e)).
Proof.
  intros E1 E2 E3 E4.
  assert (Hturn : Np.method_turn N alpha eps C A x = Raise e).
  { unfold Np.method_turn, Np.reduced_cost. cbv zeta. rewrite E1. simpl bind.
    rewrite E2. simpl bind. rewrite E3. simpl bind. rewrite E4. reflexivity. }
  assert (Hloop : forall fuel,
             Np.method_loop N alpha eps C A (S fuel) x = Some (Np.Raised e)).
  { intro fuel. simpl. rewrite Hturn. reflexivity. }
  split; [exact Hturn|]. split.
  - intros fuel k x0 Hit.
    rewrite (loop_after_iterate N alpha eps C A k (S fuel) x0 x Hit).
    apply Hloop.
  - intros fuel bound Hsol Hb Hcheck. unfold Np.method.
    rewrite Hsol, Hb, Hcheck. apply Hloop.
Qed.

Lemma inversion_error_propagates_witness :
  Np.method exact (1 # 2) (1 # 1000) [4; 4; 5] [3; 2]
            [[1; 0]; [0; 1]; [1; 1]] 1 [1; 1]
  = Some (Np.Raised PyLinAlgError).
Proof.
  refine (proj2 (proj2
            (inversion_error_propagates exact (1 # 2) (1 # 1000) [4; 4; 5]
               [3; 2] [[1; 0]; [0; 1]; [1; 1]] [1; 1]
               _ _ _ PyLinAlgError eq_refl eq_refl eq_refl _))
            0%nat _ eq_refl eq_refl eq_refl).
  vm_compute. reflexivity.
Defined.

(** C3 (as the code has it). The loop has no iteration cap and no
    NonConvergence report.  For every number of turns, the loop is still
    running after that many turns exactly when each of them went on to the
    next; and a call leaves the loop only in a turn, from the iterate [x]
    reached so far, that raises an exception, that finds the minimum of
    its reduced cost [>= 0.1] (line 49), or that meets the convergence
    test between its candidate [x_star] and [x] (line 59). *)
Theorem no_iteration_cap (N : numpy) alpha eps C A fuel (x0 : list (num N)) :
  (Np.method_loop N alpha eps C A fuel x0 = None
   <-> exists x, Np.iterate N alpha eps C A fuel x0 = Some x)
  /\ (forall o,
        Np.method_loop N alpha eps C A fuel x0 = Some o ->
        exists k x,
          (k < fuel)%nat
          /\ Np.iterate N alpha eps C A k x0 = Some x
          /\ ((exists e, Np.method_turn N alpha eps C A x = Raise e
                         /\ o = Np.Raised e)
              \/ exists c_p minimum,
                   Np.method_turn N alpha eps C A x = Ok (Np.Stop o)
                   /\ Np.reduced_cost N C A x = Ok c_p
                   /\ np_min N c_p = Ok minimum
                   /\ ((np_ge N minimum (np_tenth N) = true
                        /\ o = Np.NotApplicableStop)
                       \/ (np_ge N minimum (np_tenth N) = false
                           /\ exists x_star d objective_value,
                                Np.candidate N alpha x c_p minimum = Ok x_star
                                /\ np_subtract N x_star x = Ok d
                                /\ np_norm_le N d eps = true
                                /\ np_dot N C x_star = Ok objective_value
                                /\ o = Np.Converged x_star objective_value)))).
Proof.
  split; [apply loop_running|].
  intros o H.
  destruct (loop_left N alpha eps C A fuel x0 o H)
    as [k [x [Hk [Hit [Hstop | [e [Hraise Ho]]]]]]].
  - exists k, x. split; [exact Hk|]. split; [exact Hit|]. right.
    destruct (method_turn_stops N alpha eps C A x o Hstop)
      as [c_p [minimum [Hc [Hmin Hkind]]]].
    exists c_p, minimum. repeat split; assumption.
  - exists k, x. split; [exact Hk|]. split; [exact Hit|]. left.
    exists e. split; assumption.
Qed.

Lemma no_iteration_cap_witness :
  Np.method_loop exact (1 # 2) (-1) [1; 0] [[1; 1]] 1 [1; 1] = None.
Proof.
  apply (proj1 (no_iteration_cap exact (1 # 2) (-1) [1; 0] [[1; 1]] 1 [1; 1])).
  eexists. vm_compute. reflexivity.
Defined.

Lemma bound_check_in_range (N : numpy) (b bound : list (num N)) (idx : list nat) :
  Forall (fun i => (i < length bound)%nat /\ (i < length b)%nat) idx ->
  Np.bound_check N b idx bound
  = Ok (existsb (fun i => np_gt N (nth i bound (np_zero N))
                                  (nth i b (np_zero N))) idx).
Proof.
  induction 1 as [|i idx [Hi1 Hi2] _ IH]; simpl; [reflexivity|].
  destruct (nth_error bound i) as [a|] eqn:Ea.
  2:{ apply nth_error_None in Ea. lia. }
  destruct (nth_error b i) as [b_i|] eqn:Eb.
  2:{ apply nth_error_None in Eb. lia. }
  rewrite (nth_error_nth _ _ _ Ea), (nth_error_nth _ _ _ Eb).
  destruct (np_gt N a b_i); [reflexivity | exact IH].
Qed.

(** C7 (as the code has it). Initial-point test, reached once the
    row-positivity test has passed and [A @ x0] has been computed: the call
    reports NotApplicable exactly when some component of the computed
    product is greater than the entry of [b] at the same index, by the
    plain comparison [>] of line 32, with no tolerance; otherwise it goes
    on to the iteration. *)
Theorem initial_point_test (N : numpy) alpha eps b C A fuel
    (x0 bound : list (num N)) :
  Np.rows_sol N A = true ->
  np_matvec N A x0 = Ok bound ->
  length bound = length A ->
  (length A <= length b)%nat ->
  ((exists i, (i < length A)%nat
              /\ np_gt N (nth i bound (np_zero N)) (nth i b (np_zero N)) = true)
   -> Np.method N alpha eps b C A fuel x0 = Some Np.NotApplicableInit)
  /\ ((forall i, (i < length A)%nat ->
         np_gt N (nth i bound (np_zero N)) (nth i b (np_zero N)) = false)
      -> Np.method N alpha eps b C A fuel x0
         = Np.method_loop N alpha eps C A fuel x0).
Proof.
  intros Hsol Hb Hlen Hlenb. unfold Np.method. rewrite Hsol, Hb. simpl negb.
  cbv iota.
  rewrite bound_check_in_range.
  2:{ apply Forall_forall. intros i Hi. apply in_seq in Hi. lia. }
  split.
  - intros [i [Hi Hgt]].
    replace (existsb _ _) with true; [reflexivity|].
    symmetry. apply existsb_exists. exists i. split; [|exact Hgt].
    apply in_seq. lia.
  - intro Hall.
    replace (existsb _ _) with false; [reflexivity|].
    symmetry. apply not_true_iff_false. intro Hex.
    apply existsb_exists in Hex. destruct Hex as [i [Hi Hgt]].
    apply in_seq in Hi. rewrite Hall in Hgt by lia. discriminate.
Qed.

(** The instance of the specification: x0 = [10, 10] against
    A = [[1,0],[0,1]], b = [4,4] is flagged. *)
Lemma initial_point_test_witness :
  Np.method exact (1 # 2) (1 # 1000) [4; 4] [1; 1] [[1; 0]; [0; 1]] 10 [10; 10]
  = Some Np.NotApplicableInit.
Proof.
  refine (proj1 (initial_point_test exact (1 # 2) (1 # 1000) [4; 4] [1; 1]
                   [[1; 0]; [0; 1]] 10 [10; 10] _
                   eq_refl eq_refl eq_refl _) _).
  - apply Nat.le_refl.
  - exists 0%nat. split; [apply Nat.lt_0_succ | reflexivity].
Defined.

(** C7 as stated fails: there is no tolerance.  With A = [[1]], b = [1]
    and x0 = [1 + 2^-52], the float next to 1, the product exceeds b by
    less than 1e-15 and the call reports NotApplicable. *)
Lemma initial_point_tolerance_counterexample :
  exists bound,
    np_matvec exact [[1]] [1 + (1 # 4503599627370496)] = Ok bound
    /\ nth 0 bound 0 <= nth 0 [1] 0 + (1 # 1000000000000000)
    /\ Np.method exact (1 # 2) (1 # 1000) [1] [1] [[1]] 5
                 [1 + (1 # 4503599627370496)]
       = Some Np.NotApplicableInit.
Proof.
  eexists. split; [reflexivity|].
  split; [vm_compute; discriminate | vm_compute; reflexivity].
Qed.

(** X9. What a report of convergence tells: it comes from a turn on an
    iterate [x] that the turns before it made of [x0]; the reported point
    is the candidate [x_star] that this turn computed from [x], the test
    of line 59 held between [x_star] and [x], the gate of line 49 had not
    fired, and the reported value is the computed [C @ x_star]. *)
Theorem converged_report (N : numpy) alpha eps C A fuel
    (x0 x_star : list (num N)) obj :
  Np.method_loop N alpha eps C A fuel x0 = Some (Np.Converged x_star obj) ->
  exists k x c_p minimum d,
    (k < fuel)%nat
    /\ Np.iterate N alpha eps C A k x0 = Some x
    /\ Np.reduced_cost N C A x = Ok c_p
    /\ np_min N c_p = Ok minimum
    /\ np_ge N minimum (np_tenth N) = false
    /\ Np.candidate N alpha x c_p minimum = Ok x_star
    /\ np_subtract N x_star x = Ok d
    /\ np_norm_le N d eps = true
    /\ np_dot N C x_star = Ok obj.
Proof.
  intro H.
  destruct (loop_left N alpha eps C A fuel x0 _ H)
    as [k [x [Hk [Hit [Hstop | [e [_ Ho]]]]]]]; [|discriminate].
  destruct (method_turn_stops N alpha eps C A x _ Hstop)
    as [c_p [minimum [Hc [Hmin [[_ Ho] | [Hg Hconv]]]]]]; [discriminate|].
  destruct Hconv as [x_star' [d [obj' [Hcand [Hd [Hn [Hobj Ho]]]]]]].
  injection Ho as -> ->.
  exists k, x, c_p, minimum, d. repeat split; assumption.
Qed.

Lemma converged_report_witness :
  match Np.method_loop exact (1 # 2) 2 [1; 0] [[1; 1]] 1 [1; 1] with
  | Some (Np.Converged x_star obj) =>
      np_norm_le exact (vsub x_star [1; 1]) 2 = true
  | _ => False
  end.
Proof.
  destruct (Np.method_loop exact (1 # 2) 2 [1; 0] [[1; 1]] 1 [1; 1])
    as [[| | |x_star obj|e]|] eqn:E;
    try (vm_compute in E; discriminate).
  destruct (converged_report exact (1 # 2) 2 [1; 0] [[1; 1]] 1 [1; 1]
              x_star obj E)
    as [k [x [c_p [minimum [d [Hk [Hit [_ [_ [_ [_ [Hd [Hn _]]]]]]]]]]]]].
  assert (k = 0%nat) by lia. subst k.
  injection Hit as <-. injection Hd as <-. exact Hn.
Defined.

(** ** The ratio test on the computed ratios *)

(** [np.argmin] over values among which [ltb] is a strict weak order: for
    float64 these are the values that are not NaN. *)
Section ArgminAmong.

Variable X : Type.
Variable ltb : X -> X -> bool.
Variable ok : X -> Prop.
Variable d : X.

Hypothesis ltb_irrefl : forall a, ok a -> ltb a a = false.
Hypothesis ltb_trans :
  forall a b c, ok a -> ok b -> ok c ->
    ltb a b = true -> ltb b c = true -> ltb a c = true.
Hypothesis ltb_le_trans :
  forall a b c, ok a -> ok b -> ok c ->
    ltb a b = true -> ltb c b = false -> ltb a c = true.

Lemma ltb_asym_among a b : ok a -> ok b -> ltb a b = true -> ltb b a = false.
Proof.
  intros Ha Hb H. destruct (ltb b a) eqn:E; [|reflexivity].
  rewrite <- (ltb_irrefl a Ha). symmetry.
  exact (ltb_trans _ _ _ Ha Hb Ha H E).
Qed.

Lemma argmin_from_among (l : list X) :
  forall best_i best i,
    ok best -> Forall ok l ->
    (argmin_from ltb best_i best i l = best_i
     /\ Forall (fun a => ltb a best = false) l)
    \/ exists k,
        argmin_from ltb best_i best i l = (i + k)%nat
        /\ (k < length l)%nat
        /\ ltb (nth k l d) best = true
        /\ (forall j, (j < length l)%nat -> ltb (nth j l d) (nth k l d) = false)
        /\ (forall j, (j < k)%nat -> ltb (nth k l d) (nth j l d) = true).
Proof.
  induction l as [|a l IH]; intros best_i best i Hbest Hall; simpl.
  - left. split; [reflexivity | constructor].
  - inversion Hall as [|? ? Ha Hl]; subst.
    assert (Hnth : forall k, (k < length l)%nat -> ok (nth k l d)).
    { intros k Hk. rewrite Forall_forall in Hl. apply Hl. apply nth_In. exact Hk. }
    destruct (ltb a best) eqn:E.
    + right. destruct (IH i a (S i) Ha Hl)
        as [[Hr Hfa] | [k [Hr [Hk [Hlt [Hmin Hfirst]]]]]].
      * exists 0%nat. rewrite Hr. split; [lia|]. split; [lia|].
        split; [exact E|]. split; [|intros j Hj; lia].
        intros [|j] Hj; [apply ltb_irrefl; exact Ha|].
        rewrite Forall_forall in Hfa. apply Hfa. apply nth_In. lia.
      * exists (S k). rewrite Hr. split; [lia|]. split; [lia|].
        split; [exact (ltb_trans _ _ _ (Hnth k Hk) Ha Hbest Hlt E)|]. split.
        -- intros [|j] Hj;
             [apply ltb_asym_among; auto | apply Hmin; lia].
        -- intros [|j] Hj; [exact Hlt | apply Hfirst; lia].
    + destruct (IH best_i best (S i) Hbest Hl)
        as [[Hr Hfa] | [k [Hr [Hk [Hlt [Hmin Hfirst]]]]]].
      * left. split; [exact Hr | constructor; assumption].
      * right. exists (S k). rewrite Hr. split; [lia|]. split; [lia|].
        split; [exact Hlt|].
        assert (Hka : ltb (nth k l d) a = true)
          by exact (ltb_le_trans _ _ _ (Hnth k Hk) Hbest Ha Hlt E).
        split.
        -- intros [|j] Hj;
             [apply ltb_asym_among; auto | apply Hmin; lia].
        -- intros [|j] Hj; [exact Hka | apply Hfirst; lia].
Qed.

Lemma argmin_by_among (l : list X) :
  l <> [] -> Forall ok l ->
  exists r,
    argmin_by ltb l = Some r
    /\ (r < length l)%nat
    /\ (forall j, (j < length l)%nat -> ltb (nth j l d) (nth r l d) = false)
    /\ (forall j, (j < r)%nat -> ltb (nth r l d) (nth j l d) = true).
Proof.
  destruct l as [|a l]; [congruence|]. intros _ Hall. simpl.
  inversion Hall as [|? ? Ha Hl]; subst.
  assert (Hnth : forall k, (k < length l)%nat -> ok (nth k l d)).
  { intros k Hk. rewrite Forall_forall in Hl. apply Hl. apply nth_In. exact Hk. }
  destruct (argmin_from_among l 0%nat a 1%nat Ha Hl)
    as [[Hr Hfa] | [k [Hr [Hk [Hlt [Hmin Hfirst]]]]]].
  - exists 0%nat. rewrite Hr. split; [reflexivity|]. split; [lia|].
    split; [|intros j Hj; lia].
    intros [|j] Hj; [apply ltb_irrefl; exact Ha|].
    rewrite Forall_forall in Hfa. apply Hfa. apply nth_In. lia.
  - exists (S k). rewrite Hr. split; [reflexivity|]. split; [lia|]. split.
    + intros [|j] Hj; [apply ltb_asym_among; auto | apply Hmin; lia].
    + intros [|j] Hj; [exact Hlt | apply Hfirst; lia].
Qed.

End ArgminAmong.

(** C9. Ratio test over float arithmetic, in a turn that has found a
    negative entry of the objective row at [pivot_col], with at least one
    constraint row and no NaN ([ok]) in the objective row or among the
    computed ratios.  The ratio of a row is the computed quotient
    rhs / entry when its entry in the pivot column is [> 0] and inf
    otherwise.  The pivot row is the first row whose ratio is least.  When
    that ratio is not inf the turn pivots there, on a row whose entry is
    [> 0]; when it is inf, as it is when no row has an entry [> 0], the
    call reports Unbounded and the loop ends on the same tableau without a
    pivot. *)
Theorem ratio_test (F : Type) (flt fge fgt feq : F -> F -> bool)
    (fdiv : F -> F -> F) (zero inf : F)
    (pivot : nat -> list (list F) -> nat -> nat -> list (list F))
    (ok : F -> Prop) (m : nat) (t : list (list F)) (pivot_col : nat) :
  (forall a, ok a -> flt a a = false) ->
  (forall a b c, ok a -> ok b -> ok c ->
     flt a b = true -> flt b c = true -> flt a c = true) ->
  (forall a b c, ok a -> ok b -> ok c ->
     flt a b = true -> flt c b = false -> flt a c = true) ->
  feq inf inf = true ->
  (0 < m)%nat ->
  Forall ok (Np.objective_row F t) ->
  argmin_by flt (Np.objective_row F t) = Some pivot_col ->
  fge (nth pivot_col (last t []) zero) zero = false ->
  Forall ok (Np.ratios_of F fgt fdiv zero inf m t pivot_col) ->
  let ratio i := nth i (Np.ratios_of F fgt fdiv zero inf m t pivot_col) inf in
  let turn := Np.simplex_turn F flt fge fgt feq fdiv zero inf m t in
  (forall i, (i < m)%nat ->
     ratio i = if fgt (Np.entry F zero t i pivot_col) zero
               then fdiv (Np.rhs F zero t i) (Np.entry F zero t i pivot_col)
               else inf)
  /\ exists pivot_row,
       (pivot_row < m)%nat
       /\ (forall i, (i < m)%nat -> flt (ratio i) (ratio pivot_row) = false)
       /\ (forall i, (i < pivot_row)%nat ->
             flt (ratio pivot_row) (ratio i) = true)
       /\ (feq (ratio pivot_row) inf = false ->
           turn = TurnPivot pivot_row pivot_col
           /\ fgt (Np.entry F zero t pivot_row pivot_col) zero = true
           /\ ratio pivot_row
              = fdiv (Np.rhs F zero t pivot_row)
                     (Np.entry F zero t pivot_row pivot_col))
       /\ (feq (ratio pivot_row) inf = true ->
           turn = TurnUnbounded
           /\ forall fuel done,
               Np.simplex_loop F flt fge fgt feq fdiv zero inf pivot
                               (S fuel) m t done
               = Some (EndUnbounded, t, done))
       /\ ((forall i, (i < m)%nat ->
              fgt (Np.entry F zero t i pivot_col) zero = false) ->
           feq (ratio pivot_row) inf = true).
Proof.
  intros Hirr Htrans Hlt Hinf Hm _ Hcol Hneg Hok ratio turn.
  set (ratios := Np.ratios_of F fgt fdiv zero inf m t pivot_col) in *.
  assert (Hlen : length ratios = m)
    by (unfold ratios, Np.ratios_of; rewrite length_map; apply length_seq).
  assert (Hratio : forall i, (i < m)%nat ->
            ratio i = if fgt (Np.entry F zero t i pivot_col) zero
                      then fdiv (Np.rhs F zero t i)
                                (Np.entry F zero t i pivot_col)
                      else inf).
  { intros i Hi. unfold ratio, ratios, Np.ratios_of.
    apply (nth_map_seq (fun i => if fgt (Np.entry F zero t i pivot_col) zero
                                 then fdiv (Np.rhs F zero t i)
                                           (Np.entry F zero t i pivot_col)
                                 else inf)).
    exact Hi. }
  split; [exact Hratio|].
  destruct (argmin_by_among F flt ok inf Hirr Htrans Hlt ratios)
    as [r [Hr [Hrlt [Hmin Hfirst]]]].
  - intro E. rewrite E in Hlen. simpl in Hlen. lia.
  - exact Hok.
  - rewrite Hlen in *.
    assert (Hturn : turn = if feq (ratio r) inf then TurnUnbounded
                           else TurnPivot r pivot_col).
    { unfold turn, Np.simplex_turn. rewrite Hcol, Hneg. fold ratios.
      rewrite Hr. reflexivity. }
    exists r. split; [exact Hrlt|]. split; [exact Hmin|].
    split; [exact Hfirst|]. split; [|split].
    + intro Hfin. rewrite Hturn, Hfin. split; [reflexivity|].
      pose proof (Hratio r Hrlt) as E.
      destruct (fgt (Np.entry F zero t r pivot_col) zero).
      * split; [reflexivity | exact E].
      * rewrite E, Hinf in Hfin. discriminate.
    + intro Hisinf. rewrite Hturn, Hisinf. split; [reflexivity|].
      intros fuel done. simpl. fold turn. rewrite Hturn, Hisinf. reflexivity.
    + intro Hall. rewrite (Hratio r Hrlt), (Hall r Hrlt). exact Hinf.
Qed.

(** The first turn of the end-to-end instance of the specification: the
    ratios are 4, inf, 5 and the turn pivots on row 0. *)
Lemma ratio_test_witness :
  Np.simplex_turn ratio ratio_ltb (fun a z => negb (ratio_ltb a z))
                  (fun a z => ratio_ltb z a) ratio_eqb ratio_div (Some 0) None
                  3 (map (map Some)
                       (build_tableau [3; 2] [[1; 0]; [0; 1]; [1; 1]]
                                      [4; 4; 5]))
  = TurnPivot 0 0.
Proof.
  destruct (ratio_test ratio ratio_ltb (fun a z => negb (ratio_ltb a z))
              (fun a z => ratio_ltb z a) ratio_eqb ratio_div (Some 0) None
              (fun _ t _ _ => t) (fun _ => True) 3
              (map (map Some)
                 (build_tableau [3; 2] [[1; 0]; [0; 1]; [1; 1]] [4; 4; 5]))
              0)
    as [_ [r [Hr [Hmin [Hfirst [Hpivot _]]]]]].
  - intros a _. apply ratio_ltb_irrefl.
  - intros a b c _ _ _. apply ratio_ltb_trans.
  - intros a b c _ _ _. apply ratio_ltb_le_trans.
  - reflexivity.
  - apply Nat.lt_0_succ.
  - apply Forall_forall. intros a _. exact I.
  - reflexivity.
  - reflexivity.
  - apply Forall_forall. intros a _. exact I.
  - destruct r as [|[|[|r]]]; try lia.
    + apply Hpivot. reflexivity.
    + specialize (Hfirst 0%nat ltac:(lia)). vm_compute in Hfirst. discriminate.
    + specialize (Hfirst 0%nat ltac:(lia)). vm_compute in Hfirst. discriminate.
Defined.

(** ** The right-hand side, and exceptions in the main block *)




